(** * sputniPIC: the cycle driver [main] of [src/sputniPIC.cpp]

    The repository's one translation unit is the driver: it allocates two
    replicas of every store (a CPU-path one and an accelerator-path one),
    initialises both, runs the PIC cycle loop, compares charge densities of
    the two replicas and releases the stores.  Every routine it calls
    (allocators, [initGEM], the movers, the interpolators, the boundary
    conditions, the VTK writers) lives in headers that are not part of the
    sources at hand; they enter the development as the fields of the class
    [Collaborators], so that every theorem holds for whatever they compute.

    [main] is embedded in a small monad that threads the program state,
    records the calls and the console output as a trace of events, and
    stops on the two failures the driver itself can raise.

    Integers: C++ [int] is modelled by [Z].  Signed overflow is undefined
    in C++, so there is no wrap-around to write out; the model describes the
    executions in which the driver's own arithmetic stays inside [int]
    (see [flat_index_fits_int]).  Floating point: the numeric type
    [FPinterp], the operations [-], [fabs], [fmax] on it and the conversion
    [to_float] to a [float] are parameters.  The two accumulators of the
    comparison are declared [float]: each assignment to them goes through
    [to_float], and the values of that type are the values of [FPinterp]
    that [to_float] leaves as they are. *)

From Stdlib Require Import ZArith List Lia Bool Sorted.
From Stdlib Require Strings.String.
Import ListNotations.
Import String.StringSyntax.
Abbreviation string := String.string.
Local Open Scope string_scope.
Local Open Scope list_scope.
Local Open Scope Z_scope.

Set Implicit Arguments.
Set Maximal Implicit Insertion.

(** ** Integer ranges and array cells *)

(** The index values of [for (int i = lo; i < hi; i++)]. *)
Definition range (lo hi : Z) : list Z :=
  map (fun n => lo + Z.of_nat n) (seq 0 (Z.to_nat (hi - lo))).

(** [a[i]] read from an array held as a list.  C++ leaves an access out of
    range undefined; [main] only indexes arrays of [ns] cells with
    [0 <= is < ns] (lemmas [entry_cells_ok], [pic_cycle_cells_ok]), so the
    default [d] never shows in a run of [main]. *)
Definition cell {A : Type} (d : A) (a : list A) (i : Z) : A :=
  nth (Z.to_nat i) a d.

Fixpoint alter_nat {A : Type} (f : A -> A) (n : nat) (a : list A) : list A :=
  match a, n with
  | [], _ => []
  | x :: a', O => f x :: a'
  | x :: a', S n' => x :: alter_nat f n' a'
  end.

(** [a[i] = f (a[i])]; nothing happens out of range (see [cell]). *)
Definition alter_cell {A : Type} (f : A -> A) (i : Z) (a : list A) : list A :=
  if i <? 0 then a else alter_nat f (Z.to_nat i) a.

(** ** Program variables, calls and the trace *)

Inductive replica : Type := CPU | GPU.

(** The l-values [main] hands to its collaborators. *)
Inductive var : Type :=
| v_argc | v_argv | v_param | v_grd
| v_field (r : replica)              (* fieldCPU, fieldGPU *)
| v_field_aux (r : replica)          (* field_auxCPU, field_auxGPU *)
| v_ids (r : replica)                (* idsCPU, idsGPU: the arrays *)
| v_ids_at (r : replica) (isp : Z)    (* idsCPU[is], idsGPU[is] *)
| v_idn (r : replica)                (* idnCPU, idnGPU *)
| v_idn_rhon (r : replica)           (* idnCPU.rhon, idnGPU.rhon *)
| v_part (r : replica)               (* partCPU, partGPU: the arrays *)
| v_part_at (r : replica) (isp : Z).  (* partCPU[is], partGPU[is] *)

Inductive callee : Type :=
| f_readInputFile | f_printParameters | f_saveParameters | f_cpuSecond
| f_setGrid
| f_field_allocate | f_field_aux_allocate
| f_interp_dens_species_allocate | f_interp_dens_net_allocate
| f_particle_allocate
| f_initGEM
| f_setZeroDensities
| f_mover_PC | f_mover_PC_GPU_basic
| f_interpP2G | f_interpP2G_GPU_basic
| f_applyBCids | f_sumOverSpecies | f_applyBCscalarDensN
| f_VTK_Write_Vectors | f_VTK_Write_Scalars
| f_grid_deallocate | f_field_deallocate
| f_interp_dens_net_deallocate | f_interp_dens_species_deallocate
| f_particle_deallocate.

Inductive arg : Type :=
| Ref (v : var)       (* a pointer or an array *)
| Int (z : Z)         (* an int passed by value *)
| Tag (s : string).   (* a string literal *)

(** The three timings the driver prints; they depend on the wall clock. *)
Inductive timing : Type := iElaps | eMover_per_cycle | eInterp_per_cycle.

Section Driver.

(** The numeric type of the interpolated quantities. *)
Variable FPinterp : Type.

Inductive item : Type :=
| Str (s : string)
| Num (z : Z)
| Flt (x : FPinterp)
| Dbl (t : timing).

(** One event per call of a collaborator, per [new T[n]] and per
    [std::cout << ... << std::endl] statement. *)
Inductive event : Type :=
| Call (f : callee) (args : list arg)
| New (v : var) (n : Z)
| Cout (items : list item).

(** ** Parameters, grid and stores *)

(** The declarations of these structures are in headers that are not at
    hand.  [main] reads four fields of [parameters] and three of [grid];
    whatever else they hold is kept in [param_other] and [grid_other]. *)
Variables ParamOther GridOther : Type.

Record parameters : Type := {
  ns : Z;
  ncycles : Z;
  first_cycle_n : Z;
  FieldOutputCycle : Z;
  param_other : ParamOther
}.

Record grid : Type := {
  nxn : Z;
  nyn : Z;
  nzn : Z;
  grid_other : GridOther
}.

(** Field, auxiliary-field and particle stores are never inspected by
    [main]: they stay abstract. *)
Variables EMfield EMfield_aux particles : Type.

(** Modelled from the spec: the dual-view scalar (a nested view [a[i][j][k]]
    and a flat view [a_flat[n]]) of section 3; the headers that declare the
    density structures are missing, [main] itself only names the members
    [rhon] and [rhon_flat]. *)
Record scalar3 : Type := {
  nested : Z -> Z -> Z -> FPinterp;
  flat : Z -> FPinterp
}.

(** Modelled from the spec: the per-species moments of section 3 (charge
    density, current density, six pressure components); [InterpDensSpecies.h]
    is missing. *)
Inductive moment : Type :=
| m_rhon | m_Jx | m_Jy | m_Jz
| m_pxx | m_pxy | m_pxz | m_pyy | m_pyz | m_pzz.

Record interpDensSpecies : Type := { ids_moment : moment -> scalar3 }.

(** Modelled from the spec: the aggregate moments of section 3 (summed
    charge density and current density); [InterpDensNet.h] is missing. *)
Inductive net_moment : Type := n_rhon | n_Jx | n_Jy | n_Jz.

Record interpDensNet : Type := { idn_moment : net_moment -> scalar3 }.

(** [ids.rhon[i][j][k]], [ids.rhon_flat[n]], [idn.rhon[i][j][k]] and
    [idn.rhon_flat[n]]: the four reads of the driver. *)
Definition ids_rhon (d : interpDensSpecies) : Z -> Z -> Z -> FPinterp :=
  nested (ids_moment d m_rhon).
Definition ids_rhon_flat (d : interpDensSpecies) : Z -> FPinterp :=
  flat (ids_moment d m_rhon).
Definition idn_rhon (d : interpDensNet) : Z -> Z -> Z -> FPinterp :=
  nested (idn_moment d n_rhon).
Definition idn_rhon_flat (d : interpDensNet) : Z -> FPinterp :=
  flat (idn_moment d n_rhon).

(** The scalar behind [idn.rhon], as handed to [applyBCscalarDensN]. *)
Definition alter_idn_rhon (f : scalar3 -> scalar3) (d : interpDensNet)
  : interpDensNet :=
  {| idn_moment := fun m =>
       match m with
       | n_rhon => f (idn_moment d n_rhon)
       | _ => idn_moment d m
       end |}.

(** ** The collaborators *)

(** What the routines called by [main] do to the stores they are handed.
    The source comments say which argument each call changes ("Only partCPU
    is changed", "Only idsCPU is changed", ...): that argument is the
    result, the others are read.  The [fresh_*] fields are the
    indeterminate contents of a local or of a [new]-ed cell before any
    allocator has seen it. *)
Class Collaborators : Type := {
  fzero : FPinterp;
  fsub : FPinterp -> FPinterp -> FPinterp;
  fabs : FPinterp -> FPinterp;
  fmax : FPinterp -> FPinterp -> FPinterp;
  (* the conversion of an assignment to a [float] variable *)
  to_float : FPinterp -> FPinterp;
  setGrid : parameters -> grid;
  fresh_field : replica -> EMfield;
  fresh_field_aux : replica -> EMfield_aux;
  fresh_ids : replica -> Z -> interpDensSpecies;
  fresh_idn : replica -> interpDensNet;
  fresh_part : replica -> Z -> particles;
  field_allocate : grid -> EMfield -> EMfield;
  field_aux_allocate : grid -> EMfield_aux -> EMfield_aux;
  interp_dens_species_allocate :
    grid -> interpDensSpecies -> Z -> interpDensSpecies;
  interp_dens_net_allocate : grid -> interpDensNet -> interpDensNet;
  particle_allocate : parameters -> particles -> Z -> particles;
  initGEM :
    parameters -> grid -> EMfield -> EMfield_aux -> list particles ->
    list interpDensSpecies ->
    EMfield * EMfield_aux * list particles * list interpDensSpecies;
  mover_PC : particles -> EMfield -> grid -> parameters -> particles;
  mover_PC_GPU_basic :
    particles -> EMfield -> grid -> parameters -> particles;
  interpP2G : particles -> interpDensSpecies -> grid -> interpDensSpecies;
  interpP2G_GPU_basic :
    particles -> interpDensSpecies -> grid -> interpDensSpecies;
  applyBCids : interpDensSpecies -> grid -> parameters -> interpDensSpecies;
  sumOverSpecies :
    interpDensNet -> list interpDensSpecies -> grid -> Z -> interpDensNet;
  applyBCscalarDensN : scalar3 -> grid -> parameters -> scalar3;
  (* arrays are handed by pointer: a callee cannot change their size *)
  initGEM_cells : forall p g f a x d,
    List.length (snd (fst (initGEM p g f a x d))) = List.length x /\
    List.length (snd (initGEM p g f a x d)) = List.length d
}.

Context {W : Collaborators}.

(** ** Program state *)

(** The five stores of one replica. *)
Record stores : Type := {
  field : EMfield;
  field_aux : EMfield_aux;
  ids : list interpDensSpecies;
  idn : interpDensNet;
  part : list particles
}.

(** The driver's locals: [cpu] holds [fieldCPU], [field_auxCPU], [idsCPU],
    [idnCPU], [partCPU]; [gpu] holds their [GPU] twins. *)
Record state : Type := { cpu : stores; gpu : stores }.

Definition sel (r : replica) (st : state) : stores :=
  match r with CPU => cpu st | GPU => gpu st end.

Definition upd (r : replica) (f : stores -> stores) (st : state) : state :=
  match r with
  | CPU => {| cpu := f (cpu st); gpu := gpu st |}
  | GPU => {| cpu := cpu st; gpu := f (gpu st) |}
  end.

Definition with_field (x : EMfield) (s : stores) : stores :=
  {| field := x; field_aux := field_aux s; ids := ids s; idn := idn s;
     part := part s |}.
Definition with_field_aux (x : EMfield_aux) (s : stores) : stores :=
  {| field := field s; field_aux := x; ids := ids s; idn := idn s;
     part := part s |}.
Definition with_ids (x : list interpDensSpecies) (s : stores) : stores :=
  {| field := field s; field_aux := field_aux s; ids := x; idn := idn s;
     part := part s |}.
Definition with_idn (x : interpDensNet) (s : stores) : stores :=
  {| field := field s; field_aux := field_aux s; ids := ids s; idn := x;
     part := part s |}.
Definition with_part (x : list particles) (s : stores) : stores :=
  {| field := field s; field_aux := field_aux s; ids := ids s; idn := idn s;
     part := x |}.

Definition fieldCPU (st : state) := field (cpu st).
Definition fieldGPU (st : state) := field (gpu st).
Definition field_auxCPU (st : state) := field_aux (cpu st).
Definition field_auxGPU (st : state) := field_aux (gpu st).
Definition idsCPU (st : state) := ids (cpu st).
Definition idsGPU (st : state) := ids (gpu st).
Definition idnCPU (st : state) := idn (cpu st).
Definition idnGPU (st : state) := idn (gpu st).
Definition partCPU (st : state) := part (cpu st).
Definition partGPU (st : state) := part (gpu st).

(** The locals as declared, before any allocation: the structures hold
    indeterminate members, the array pointers point nowhere yet. *)
Definition locals : state :=
  {| cpu := {| field := fresh_field CPU; field_aux := fresh_field_aux CPU;
               ids := []; idn := fresh_idn CPU; part := [] |};
     gpu := {| field := fresh_field GPU; field_aux := fresh_field_aux GPU;
               ids := []; idn := fresh_idn GPU; part := [] |} |}.

(** ** The driver monad: state, trace, failure *)

Inductive failure : Type :=
| bad_array_new_length     (* [new T[n]] with [n < 0] throws; nothing catches *)
| division_by_zero.        (* [cycle % 0] *)

Inductive outcome (A : Type) : Type :=
| Done (a : A) (st : state)
| Fail (f : failure).
Arguments Fail {A} f.

Definition M (A : Type) : Type := state -> list event * outcome A.

Definition ret {A : Type} (a : A) : M A := fun st => ([], Done a st).

Definition bind {A B : Type} (m : M A) (k : A -> M B) : M B :=
  fun st =>
    match m st with
    | (t1, Done a st1) => let (t2, o) := k a st1 in (t1 ++ t2, o)
    | (t1, Fail f) => (t1, Fail f)
    end.

Definition raise {A : Type} (f : failure) : M A := fun _ => ([], Fail f).

(** A call: one event, and what the callee does to the state. *)
Definition call (f : callee) (args : list arg) (effect : state -> state)
  : M unit :=
  fun st => ([Call f args], Done tt (effect st)).

(** [std::cout << ... << std::endl;] of constants, and of values read from
    the state. *)
Definition cout (items : list item) : M unit :=
  fun st => ([Cout items], Done tt st).

Definition cout_of (items : state -> list item) : M unit :=
  fun st => ([Cout (items st)], Done tt st).

(** [a = new T[n]], each cell indeterminate. *)
Definition new_array (v : var) (n : Z) (effect : state -> state) : M unit :=
  fun st =>
    if n <? 0 then ([], Fail bad_array_new_length)
    else ([New v n], Done tt (effect st)).

Fixpoint foreach (l : list Z) (body : Z -> M unit) : M unit :=
  match l with
  | [] => ret tt
  | i :: l' => bind (body i) (fun _ => foreach l' body)
  end.

(** [for (int i = lo; i < hi; i++) body] *)
Definition for_range (lo hi : Z) (body : Z -> M unit) : M unit :=
  foreach (range lo hi) body.

Notation "m1 ;; m2" := (bind m1 (fun _ => m2))
  (at level 61, right associativity).

(** ** The driver, block by block *)

(** Lines 36-49: input, timer start, grid.  [p] is the [param] structure as
    [readInputFile] filled it, [g] the grid as [setGrid] filled it. *)
Definition read_input : M unit :=
  call f_readInputFile [Ref v_param; Ref v_argc; Ref v_argv] id ;;
  call f_printParameters [Ref v_param] id ;;
  call f_saveParameters [Ref v_param] id ;;
  call f_cpuSecond [] id ;;
  call f_setGrid [Ref v_param; Ref v_grd] id.

(** Lines 51-80: allocation. *)
Definition allocate_stores (p : parameters) (g : grid) : M unit :=
  call f_field_allocate [Ref v_grd; Ref (v_field CPU)]
    (fun st => upd CPU (with_field (field_allocate g (fieldCPU st))) st) ;;
  call f_field_allocate [Ref v_grd; Ref (v_field GPU)]
    (fun st => upd GPU (with_field (field_allocate g (fieldGPU st))) st) ;;
  call f_field_aux_allocate [Ref v_grd; Ref (v_field_aux CPU)]
    (fun st =>
       upd CPU (with_field_aux (field_aux_allocate g (field_auxCPU st))) st) ;;
  call f_field_aux_allocate [Ref v_grd; Ref (v_field_aux GPU)]
    (fun st =>
       upd GPU (with_field_aux (field_aux_allocate g (field_auxGPU st))) st) ;;
  new_array (v_ids CPU) (ns p)
    (upd CPU (with_ids (map (fresh_ids CPU) (range 0 (ns p))))) ;;
  new_array (v_ids GPU) (ns p)
    (upd GPU (with_ids (map (fresh_ids GPU) (range 0 (ns p))))) ;;
  for_range 0 (ns p) (fun isp =>
    call f_interp_dens_species_allocate
      [Ref v_grd; Ref (v_ids_at CPU isp); Int isp]
      (fun st =>
         upd CPU (with_ids
           (alter_cell (fun d => interp_dens_species_allocate g d isp) isp
              (idsCPU st))) st)) ;;
  call f_interp_dens_net_allocate [Ref v_grd; Ref (v_idn CPU)]
    (fun st => upd CPU (with_idn (interp_dens_net_allocate g (idnCPU st))) st) ;;
  new_array (v_part CPU) (ns p)
    (upd CPU (with_part (map (fresh_part CPU) (range 0 (ns p))))) ;;
  new_array (v_part GPU) (ns p)
    (upd GPU (with_part (map (fresh_part GPU) (range 0 (ns p))))) ;;
  for_range 0 (ns p) (fun isp =>
    call f_particle_allocate [Ref v_param; Ref (v_part_at CPU isp); Int isp]
      (fun st =>
         upd CPU (with_part
           (alter_cell (fun x => particle_allocate p x isp) isp
              (partCPU st))) st) ;;
    call f_particle_allocate [Ref v_param; Ref (v_part_at GPU isp); Int isp]
      (fun st =>
         upd GPU (with_part
           (alter_cell (fun x => particle_allocate p x isp) isp
              (partGPU st))) st)).

(** What one call of [initGEM] leaves in the four stores it is handed. *)
Definition init_stores (p : parameters) (g : grid) (s : stores) : stores :=
  let '(f, a, x, d) := initGEM p g (field s) (field_aux s) (part s) (ids s) in
  {| field := f; field_aux := a; ids := d; idn := idn s; part := x |}.

(** Lines 82-86: initialization. *)
Definition initialization (p : parameters) (g : grid) : M unit :=
  call f_initGEM
    [Ref v_param; Ref v_grd; Ref (v_field CPU); Ref (v_field_aux CPU);
     Ref (v_part CPU); Ref (v_ids CPU)]
    (upd CPU (init_stores p g)) ;;
  call f_initGEM
    [Ref v_param; Ref v_grd; Ref (v_field GPU); Ref (v_field_aux GPU);
     Ref (v_part GPU); Ref (v_ids GPU)]
    (upd GPU (init_stores p g)) ;;
  cout [Str " STARTING SIMULATION "].

Definition zero_scalar3 : scalar3 :=
  {| nested := fun _ _ _ => fzero; flat := fun _ => fzero |}.
Definition zero_species : interpDensSpecies :=
  {| ids_moment := fun _ => zero_scalar3 |}.
Definition zero_net : interpDensNet :=
  {| idn_moment := fun _ => zero_scalar3 |}.

(** Modelled from the spec: [setZeroDensities], whose definition is not at
    hand; section 4.6 step 1: "Zero all per-species and aggregate densities
    (both views)".  Handed the aggregate store, the array of per-species
    stores and the number [n] of species, it leaves zero in every moment of
    the aggregate store and of the first [n] cells of the array. *)
Definition setZeroDensities (d : interpDensNet) (a : list interpDensSpecies)
    (g : grid) (n : Z) : interpDensNet * list interpDensSpecies :=
  (zero_net,
   map (fun _ => zero_species) (firstn (Z.to_nat n) a) ++ skipn (Z.to_nat n) a).

Definition zero_stores (g : grid) (n : Z) (s : stores) : stores :=
  let (d, a) := setZeroDensities (idn s) (ids s) g n in
  with_idn d (with_ids a s).

Definition stars : string := "***********************".

(** Lines 98-100: zeroing of the densities. *)
Definition zero_densities (p : parameters) (g : grid) : M unit :=
  call f_setZeroDensities
    [Ref (v_idn CPU); Ref (v_ids CPU); Ref v_grd; Int (ns p)]
    (upd CPU (zero_stores g (ns p))) ;;
  call f_setZeroDensities
    [Ref (v_idn GPU); Ref (v_ids GPU); Ref v_grd; Int (ns p)]
    (upd GPU (zero_stores g (ns p))).

(** Lines 104-110: the movers. *)
Definition move_particles (p : parameters) (g : grid) : M unit :=
  call f_cpuSecond [] id ;;
  for_range 0 (ns p) (fun isp =>
    call f_mover_PC
      [Ref (v_part_at CPU isp); Ref (v_field CPU); Ref v_grd; Ref v_param]
      (fun st =>
         upd CPU (with_part
           (alter_cell (fun x => mover_PC x (fieldCPU st) g p) isp
              (partCPU st))) st) ;;
    call f_mover_PC_GPU_basic
      [Ref (v_part_at GPU isp); Ref (v_field GPU); Ref v_grd; Ref v_param]
      (fun st =>
         upd GPU (with_part
           (alter_cell (fun x => mover_PC_GPU_basic x (fieldGPU st) g p) isp
              (partGPU st))) st)) ;;
  call f_cpuSecond [] id.

(** Lines 115-132: interpolation, boundary conditions, sum over species. *)
Definition interpolate (p : parameters) (g : grid) : M unit :=
  call f_cpuSecond [] id ;;
  for_range 0 (ns p) (fun isp =>
    call f_interpP2G
      [Ref (v_part_at CPU isp); Ref (v_ids_at CPU isp); Ref v_grd]
      (fun st =>
         upd CPU (with_ids
           (alter_cell
              (fun d =>
                 interpP2G (cell (fresh_part CPU isp) (partCPU st) isp) d g)
              isp (idsCPU st))) st) ;;
    call f_interpP2G_GPU_basic
      [Ref (v_part_at GPU isp); Ref (v_ids_at GPU isp); Ref v_grd]
      (fun st =>
         upd GPU (with_ids
           (alter_cell
              (fun d =>
                 interpP2G_GPU_basic
                   (cell (fresh_part GPU isp) (partGPU st) isp) d g)
              isp (idsGPU st))) st)) ;;
  for_range 0 (ns p) (fun isp =>
    call f_applyBCids [Ref (v_ids_at CPU isp); Ref v_grd; Ref v_param]
      (fun st =>
         upd CPU (with_ids
           (alter_cell (fun d => applyBCids d g p) isp (idsCPU st))) st) ;;
    call f_applyBCids [Ref (v_ids_at GPU isp); Ref v_grd; Ref v_param]
      (fun st =>
         upd GPU (with_ids
           (alter_cell (fun d => applyBCids d g p) isp (idsGPU st))) st)) ;;
  call f_sumOverSpecies
    [Ref (v_idn CPU); Ref (v_ids CPU); Ref v_grd; Int (ns p)]
    (fun st =>
       upd CPU (with_idn (sumOverSpecies (idnCPU st) (idsCPU st) g (ns p))) st) ;;
  call f_sumOverSpecies
    [Ref (v_idn GPU); Ref (v_ids GPU); Ref v_grd; Int (ns p)]
    (fun st =>
       upd GPU (with_idn (sumOverSpecies (idnGPU st) (idsGPU st) g (ns p))) st) ;;
  call f_applyBCscalarDensN [Ref (v_idn_rhon CPU); Ref v_grd; Ref v_param]
    (fun st =>
       upd CPU (with_idn
         (alter_idn_rhon (fun a => applyBCscalarDensN a g p) (idnCPU st))) st) ;;
  call f_applyBCscalarDensN [Ref (v_idn_rhon GPU); Ref v_grd; Ref v_param]
    (fun st =>
       upd GPU (with_idn
         (alter_idn_rhon (fun a => applyBCscalarDensN a g p) (idnGPU st))) st).

(** Lines 135-144: the snapshots.  C++ [%] truncates towards zero, as
    [Z.rem] does; a zero divisor is undefined behaviour. *)
Definition write_output (p : parameters) (cycle : Z) : M unit :=
  (if FieldOutputCycle p =? 0 then raise division_by_zero
   else if Z.rem cycle (FieldOutputCycle p) =? 0 then
     call f_VTK_Write_Vectors
       [Int cycle; Ref v_grd; Ref (v_field CPU); Tag "cpu"] id ;;
     call f_VTK_Write_Vectors
       [Int cycle; Ref v_grd; Ref (v_field GPU); Tag "gpu"] id ;;
     call f_VTK_Write_Scalars
       [Int cycle; Ref v_grd; Ref (v_ids CPU); Ref (v_idn CPU); Tag "cpu"] id ;;
     call f_VTK_Write_Scalars
       [Int cycle; Ref v_grd; Ref (v_ids GPU); Ref (v_idn GPU); Tag "gpu"] id
   else ret tt) ;;
  call f_cpuSecond [] id.

(** Lines 93-146: the body of the cycle loop. *)
Definition pic_cycle (p : parameters) (g : grid) (cycle : Z) : M unit :=
  cout [] ;;
  cout [Str stars] ;;
  cout [Str "   cycle = "; Num cycle] ;;
  cout [Str stars] ;;
  zero_densities p g ;;
  move_particles p g ;;
  interpolate p g ;;
  write_output p cycle.

(** Lines 91-147: the cycle loop. *)
Definition simulation (p : parameters) (g : grid) : M unit :=
  for_range (first_cycle_n p) (first_cycle_n p + ncycles p) (pic_cycle p g).

(** Lines 151-170: [maxErrorIdsRhon], the loop nest as written.  The
    accumulator is a [float] that starts at [0.0f]; the assignment of line
    157 converts the result of [fmax] to it. *)
Definition maxErrorIdsRhon (p : parameters) (g : grid) (st : state)
  : FPinterp :=
  fold_left (fun acc isp =>
    fold_left (fun acc i =>
      fold_left (fun acc j =>
        fold_left (fun acc k =>
          to_float (fmax acc (fabs (fsub
            (ids_rhon (cell (fresh_ids CPU isp) (idsCPU st) isp) i j k)
            (ids_rhon_flat (cell (fresh_ids GPU isp) (idsGPU st) isp)
               (k * (nxn g + nyn g) + j * nxn g + i))))))
          (range 0 (nzn g)) acc)
        (range 0 (nyn g)) acc)
      (range 0 (nxn g)) acc)
    (range 0 (ns p)) fzero.

(** Lines 173-189: [maxErrorIdnRhon], the loop nest as written; a [float]
    accumulator again, assigned at line 177. *)
Definition maxErrorIdnRhon (g : grid) (st : state) : FPinterp :=
  fold_left (fun acc i =>
    fold_left (fun acc j =>
      fold_left (fun acc k =>
        to_float (fmax acc (fabs (fsub
          (idn_rhon (idnCPU st) i j k)
          (idn_rhon_flat (idnCPU st)
             (k * (nxn g + nyn g) + j * nxn g + i))))))
        (range 0 (nzn g)) acc)
      (range 0 (nyn g)) acc)
    (range 0 (nxn g)) fzero.

(** Lines 149-190: the comparison of the two replicas. *)
Definition compare_results (p : parameters) (g : grid) : M unit :=
  cout_of (fun st =>
    [Str "Max error idsrhon: "; Flt (maxErrorIdsRhon p g st)]) ;;
  cout_of (fun st =>
    [Str "Max error idnrhon: "; Flt (maxErrorIdnRhon g st)]).

(** Lines 195-207: release of the resources.  The released stores are not
    read again, so the calls leave the state as it is. *)
Definition release_resources (p : parameters) : M unit :=
  call f_grid_deallocate [Ref v_grd] id ;;
  call f_field_deallocate [Ref v_grd; Ref (v_field CPU)] id ;;
  call f_field_deallocate [Ref v_grd; Ref (v_field GPU)] id ;;
  call f_interp_dens_net_deallocate [Ref v_grd; Ref (v_idn CPU)] id ;;
  for_range 0 (ns p) (fun isp =>
    call f_interp_dens_species_deallocate
      [Ref v_grd; Ref (v_ids_at CPU isp)] id ;;
    call f_particle_deallocate [Ref (v_part_at CPU isp)] id).

Definition stars2 : string := "**************************************".

(** Lines 210-219: the timings. *)
Definition print_timing : M unit :=
  call f_cpuSecond [] id ;;
  cout [] ;;
  cout [Str stars2] ;;
  cout [Str "   Tot. Simulation Time (s) = "; Dbl iElaps] ;;
  cout [Str "   Mover Time / Cycle   (s) = "; Dbl eMover_per_cycle] ;;
  cout [Str "   Interp. Time / Cycle (s) = "; Dbl eInterp_per_cycle] ;;
  cout [Str stars2].

(** [main], lines 34-223; its value is the exit status. *)
Definition main (p : parameters) : M Z :=
  let g := setGrid p in
  read_input ;;
  allocate_stores p g ;;
  initialization p g ;;
  simulation p g ;;
  compare_results p g ;;
  release_resources p ;;
  print_timing ;;
  ret 0.

(** A run of the program: [main] started on the locals as declared. *)
Definition run (p : parameters) : list event * outcome Z := main p locals.

Definition trace_of {A : Type} (r : list event * outcome A) : list event :=
  fst r.

Definition exit_status (r : list event * outcome Z) : option Z :=
  match snd r with
  | Done z _ => Some z
  | Fail _ => None
  end.

Definition final_state {A : Type} (r : list event * outcome A)
  : option state :=
  match snd r with
  | Done _ st => Some st
  | Fail _ => None
  end.

(** ** The traces, block by block

    What each block of the driver emits when none of its statements
    fails (lemmas [read_input_total] to [print_timing_steps] below). *)

Definition read_input_trace : list event :=
  [Call f_readInputFile [Ref v_param; Ref v_argc; Ref v_argv];
   Call f_printParameters [Ref v_param];
   Call f_saveParameters [Ref v_param];
   Call f_cpuSecond [];
   Call f_setGrid [Ref v_param; Ref v_grd]].

Definition field_allocations : list event :=
  [Call f_field_allocate [Ref v_grd; Ref (v_field CPU)];
   Call f_field_allocate [Ref v_grd; Ref (v_field GPU)];
   Call f_field_aux_allocate [Ref v_grd; Ref (v_field_aux CPU)];
   Call f_field_aux_allocate [Ref v_grd; Ref (v_field_aux GPU)]].

Definition species_allocations (isp : Z) : list event :=
  [Call f_interp_dens_species_allocate
     [Ref v_grd; Ref (v_ids_at CPU isp); Int isp]].

Definition particle_allocations (isp : Z) : list event :=
  [Call f_particle_allocate [Ref v_param; Ref (v_part_at CPU isp); Int isp];
   Call f_particle_allocate [Ref v_param; Ref (v_part_at GPU isp); Int isp]].

Definition allocate_trace (p : parameters) : list event :=
  field_allocations
  ++ [New (v_ids CPU) (ns p); New (v_ids GPU) (ns p)]
  ++ flat_map species_allocations (range 0 (ns p))
  ++ [Call f_interp_dens_net_allocate [Ref v_grd; Ref (v_idn CPU)];
      New (v_part CPU) (ns p); New (v_part GPU) (ns p)]
  ++ flat_map particle_allocations (range 0 (ns p)).

Definition initialization_trace : list event :=
  [Call f_initGEM
     [Ref v_param; Ref v_grd; Ref (v_field CPU); Ref (v_field_aux CPU);
      Ref (v_part CPU); Ref (v_ids CPU)];
   Call f_initGEM
     [Ref v_param; Ref v_grd; Ref (v_field GPU); Ref (v_field_aux GPU);
      Ref (v_part GPU); Ref (v_ids GPU)];
   Cout [Str " STARTING SIMULATION "]].

Definition banner (cycle : Z) : list event :=
  [Cout []; Cout [Str stars]; Cout [Str "   cycle = "; Num cycle];
   Cout [Str stars]].

Definition zero_trace (p : parameters) : list event :=
  [Call f_setZeroDensities
     [Ref (v_idn CPU); Ref (v_ids CPU); Ref v_grd; Int (ns p)];
   Call f_setZeroDensities
     [Ref (v_idn GPU); Ref (v_ids GPU); Ref v_grd; Int (ns p)]].

Definition mover_calls (isp : Z) : list event :=
  [Call f_mover_PC
     [Ref (v_part_at CPU isp); Ref (v_field CPU); Ref v_grd; Ref v_param];
   Call f_mover_PC_GPU_basic
     [Ref (v_part_at GPU isp); Ref (v_field GPU); Ref v_grd; Ref v_param]].

Definition move_trace (p : parameters) : list event :=
  [Call f_cpuSecond []]
  ++ flat_map mover_calls (range 0 (ns p))
  ++ [Call f_cpuSecond []].

Definition interp_calls (isp : Z) : list event :=
  [Call f_interpP2G
     [Ref (v_part_at CPU isp); Ref (v_ids_at CPU isp); Ref v_grd];
   Call f_interpP2G_GPU_basic
     [Ref (v_part_at GPU isp); Ref (v_ids_at GPU isp); Ref v_grd]].

Definition bc_calls (isp : Z) : list event :=
  [Call f_applyBCids [Ref (v_ids_at CPU isp); Ref v_grd; Ref v_param];
   Call f_applyBCids [Ref (v_ids_at GPU isp); Ref v_grd; Ref v_param]].

Definition sum_calls (p : parameters) : list event :=
  [Call f_sumOverSpecies
     [Ref (v_idn CPU); Ref (v_ids CPU); Ref v_grd; Int (ns p)];
   Call f_sumOverSpecies
     [Ref (v_idn GPU); Ref (v_ids GPU); Ref v_grd; Int (ns p)];
   Call f_applyBCscalarDensN [Ref (v_idn_rhon CPU); Ref v_grd; Ref v_param];
   Call f_applyBCscalarDensN [Ref (v_idn_rhon GPU); Ref v_grd; Ref v_param]].

Definition interpolate_trace (p : parameters) : list event :=
  [Call f_cpuSecond []]
  ++ flat_map interp_calls (range 0 (ns p))
  ++ flat_map bc_calls (range 0 (ns p))
  ++ sum_calls p.

Definition snapshots (cycle : Z) : list event :=
  [Call f_VTK_Write_Vectors [Int cycle; Ref v_grd; Ref (v_field CPU); Tag "cpu"];
   Call f_VTK_Write_Vectors [Int cycle; Ref v_grd; Ref (v_field GPU); Tag "gpu"];
   Call f_VTK_Write_Scalars
     [Int cycle; Ref v_grd; Ref (v_ids CPU); Ref (v_idn CPU); Tag "cpu"];
   Call f_VTK_Write_Scalars
     [Int cycle; Ref v_grd; Ref (v_ids GPU); Ref (v_idn GPU); Tag "gpu"]].

Definition output_trace (p : parameters) (cycle : Z) : list event :=
  (if Z.rem cycle (FieldOutputCycle p) =? 0 then snapshots cycle else [])
  ++ [Call f_cpuSecond []].

(** A cycle up to the test of the output cadence, and a whole cycle. *)
Definition cycle_prefix (p : parameters) (cycle : Z) : list event :=
  banner cycle ++ zero_trace p ++ move_trace p ++ interpolate_trace p.

Definition cycle_trace (p : parameters) (cycle : Z) : list event :=
  cycle_prefix p cycle ++ output_trace p cycle.

Definition cycles (p : parameters) : list Z :=
  range (first_cycle_n p) (first_cycle_n p + ncycles p).

Definition simulation_trace (p : parameters) : list event :=
  flat_map (cycle_trace p) (cycles p).

Definition compare_trace (p : parameters) (g : grid) (st : state)
  : list event :=
  [Cout [Str "Max error idsrhon: "; Flt (maxErrorIdsRhon p g st)];
   Cout [Str "Max error idnrhon: "; Flt (maxErrorIdnRhon g st)]].

Definition release_calls (isp : Z) : list event :=
  [Call f_interp_dens_species_deallocate [Ref v_grd; Ref (v_ids_at CPU isp)];
   Call f_particle_deallocate [Ref (v_part_at CPU isp)]].

Definition release_trace (p : parameters) : list event :=
  [Call f_grid_deallocate [Ref v_grd];
   Call f_field_deallocate [Ref v_grd; Ref (v_field CPU)];
   Call f_field_deallocate [Ref v_grd; Ref (v_field GPU)];
   Call f_interp_dens_net_deallocate [Ref v_grd; Ref (v_idn CPU)]]
  ++ flat_map release_calls (range 0 (ns p)).

Definition timing_trace : list event :=
  [Call f_cpuSecond []; Cout []; Cout [Str stars2];
   Cout [Str "   Tot. Simulation Time (s) = "; Dbl iElaps];
   Cout [Str "   Mover Time / Cycle   (s) = "; Dbl eMover_per_cycle];
   Cout [Str "   Interp. Time / Cycle (s) = "; Dbl eInterp_per_cycle];
   Cout [Str stars2]].

(** ** The comparison, access by access *)

(** The flat-view index of node [(i, j, k)], as the two loop nests of the
    comparison write it (lines 160-162 and 180-182). *)
Definition flat_index (g : grid) (i j k : Z) : Z :=
  k * (nxn g + nyn g) + j * nxn g + i.

Definition in_mesh (g : grid) (i j k : Z) : Prop :=
  0 <= i < nxn g /\ 0 <= j < nyn g /\ 0 <= k < nzn g.

(** The dual-view scalars the comparison reads. *)
Inductive scalar_ref : Type :=
| species_rhon (r : replica) (isp : Z)   (* idsCPU[is].rhon, idsGPU[is].rhon *)
| net_rhon (r : replica).                (* idnCPU.rhon, idnGPU.rhon *)

Definition scalar_replica (s : scalar_ref) : replica :=
  match s with species_rhon r _ => r | net_rhon r => r end.

Definition scalar_of (st : state) (s : scalar_ref) : scalar3 :=
  match s with
  | species_rhon r isp =>
      ids_moment (cell (fresh_ids r isp) (ids (sel r st)) isp) m_rhon
  | net_rhon r => idn_moment (idn (sel r st)) n_rhon
  end.

(** One execution of the innermost statement of a loop nest: the nested
    view of [lhs] read at [(at_i, at_j, at_k)], the flat view of [rhs] read
    at [at_flat]. *)
Record comparison : Type := {
  lhs : scalar_ref;
  at_i : Z;
  at_j : Z;
  at_k : Z;
  rhs : scalar_ref;
  at_flat : Z
}.

Definition compare_step (st : state) (acc : FPinterp) (c : comparison)
  : FPinterp :=
  to_float (fmax acc (fabs (fsub
    (nested (scalar_of st (lhs c)) (at_i c) (at_j c) (at_k c))
    (flat (scalar_of st (rhs c)) (at_flat c))))).

(** The magnitude one comparison contributes. *)
Definition deviation (st : state) (c : comparison) : FPinterp :=
  fabs (fsub (nested (scalar_of st (lhs c)) (at_i c) (at_j c) (at_k c))
             (flat (scalar_of st (rhs c)) (at_flat c))).

(** The comparisons of a loop nest over the mesh, in execution order. *)
Definition mesh_comparisons (g : grid) (a b : scalar_ref) : list comparison :=
  flat_map (fun i =>
    flat_map (fun j =>
      map (fun k =>
        {| lhs := a; at_i := i; at_j := j; at_k := k;
           rhs := b; at_flat := flat_index g i j k |})
        (range 0 (nzn g)))
      (range 0 (nyn g)))
    (range 0 (nxn g)).

Definition ids_comparisons (p : parameters) (g : grid) : list comparison :=
  flat_map (fun isp =>
    mesh_comparisons g (species_rhon CPU isp) (species_rhon GPU isp))
    (range 0 (ns p)).

Definition idn_comparisons (g : grid) : list comparison :=
  mesh_comparisons g (net_rhon CPU) (net_rhon CPU).

(** ** The state at the entry of the cycle loop *)

(** The stores once [allocate_stores] has run: each store that went through
    an allocator holds what the allocator made of its indeterminate content;
    [idsGPU[is]] and [idnGPU] went through none. *)
Definition allocated (p : parameters) (g : grid) : state :=
  {| cpu :=
       {| field := field_allocate g (fresh_field CPU);
          field_aux := field_aux_allocate g (fresh_field_aux CPU);
          ids := map (fun isp =>
                        interp_dens_species_allocate g (fresh_ids CPU isp) isp)
                     (range 0 (ns p));
          idn := interp_dens_net_allocate g (fresh_idn CPU);
          part := map (fun isp => particle_allocate p (fresh_part CPU isp) isp)
                      (range 0 (ns p)) |};
     gpu :=
       {| field := field_allocate g (fresh_field GPU);
          field_aux := field_aux_allocate g (fresh_field_aux GPU);
          ids := map (fresh_ids GPU) (range 0 (ns p));
          idn := fresh_idn GPU;
          part := map (fun isp => particle_allocate p (fresh_part GPU isp) isp)
                      (range 0 (ns p)) |} |}.

Definition initialized (p : parameters) (g : grid) : state :=
  upd GPU (init_stores p g) (upd CPU (init_stores p g) (allocated p g)).

(** What [main] does from the cycle loop on. *)
Definition from_the_loop (p : parameters) (g : grid) : M Z :=
  simulation p g ;;
  compare_results p g ;;
  release_resources p ;;
  print_timing ;;
  ret 0.

(** Both replicas hold [ns] density cells and [ns] particle cells. *)
Definition cells_ok (p : parameters) (st : state) : Prop :=
  forall r,
    List.length (ids (sel r st)) = Z.to_nat (ns p) /\
    List.length (part (sel r st)) = Z.to_nat (ns p).

(** Two states that differ at most in their density stores. *)
Definition same_fields_and_particles (st st' : state) : Prop :=
  forall r,
    field (sel r st) = field (sel r st') /\
    field_aux (sel r st) = field_aux (sel r st') /\
    part (sel r st) = part (sel r st').

(** The state right after the two calls of [setZeroDensities]. *)
Definition zeroed (p : parameters) (g : grid) (st : state) : state :=
  upd GPU (zero_stores g (ns p)) (upd CPU (zero_stores g (ns p)) st).

(** What a cycle does once the densities are zeroed. *)
Definition after_zeroing (p : parameters) (g : grid) (cycle : Z) : M unit :=
  move_particles p g ;; interpolate p g ;; write_output p cycle.

(** ** The states of the cycle loop *)

(** The states in which the iterations of a loop end, in order, one per
    iteration that returns. *)
Fixpoint states_of (body : Z -> M unit) (l : list Z) (st : state)
  : list state :=
  match l with
  | [] => []
  | i :: l' =>
      match snd (body i st) with
      | Done _ st' => st' :: states_of body l' st'
      | Fail _ => []
      end
  end.

(** The state at the end of each cycle of a run, from the state the cycle
    loop starts in (lemma [run_from_the_loop]). *)
Definition states_after_cycles (p : parameters) : list state :=
  states_of (pic_cycle p (setGrid p)) (cycles p) (initialized p (setGrid p)).

(** ** Reading a trace *)

(** A line of the comparison: the only console lines that carry a value
    read from the stores. *)
Definition is_report (e : event) : bool :=
  match e with
  | Cout items =>
      existsb (fun x => match x with Flt _ => true | _ => false end) items
  | _ => false
  end.

(** The line ["   cycle = " << cycle] that opens cycle [c]. *)
Definition is_banner (c : Z) (e : event) : bool :=
  match e with
  | Cout [Str s; Num z] => String.eqb s "   cycle = " && (z =? c)
  | _ => false
  end.

Fixpoint after (P : event -> bool) (tr : list event) : list event :=
  match tr with
  | [] => []
  | e :: tr' => if P e then tr' else after P tr'
  end.

Fixpoint before (P : event -> bool) (tr : list event) : list event :=
  match tr with
  | [] => []
  | e :: tr' => if P e then [] else e :: before P tr'
  end.

(** What a run emits from the opening line of cycle [c] up to the opening
    line of cycle [c + 1], or up to its end when [c] is the last cycle. *)
Definition events_of_cycle (c : Z) (tr : list event) : list event :=
  before (is_banner (c + 1)) (after (is_banner c) tr).

(** "The comparison is reported after every cycle." *)
Definition reported_after_each_cycle (p : parameters) (tr : list event)
  : Prop :=
  forall c, In c (cycles p) ->
    existsb is_report (events_of_cycle c tr) = true.

Definition replica_eqb (a b : replica) : bool :=
  match a, b with CPU, CPU | GPU, GPU => true | _, _ => false end.

Definition var_eqb (a b : var) : bool :=
  match a, b with
  | v_argc, v_argc | v_argv, v_argv | v_param, v_param | v_grd, v_grd => true
  | v_field r, v_field r' | v_field_aux r, v_field_aux r'
  | v_ids r, v_ids r' | v_idn r, v_idn r' | v_idn_rhon r, v_idn_rhon r'
  | v_part r, v_part r' => replica_eqb r r'
  | v_ids_at r i, v_ids_at r' i' | v_part_at r i, v_part_at r' i' =>
      replica_eqb r r' && (i =? i')
  | _, _ => false
  end.

(** The store a call allocates, and the store a call releases. *)
Definition allocated_store (e : event) : option var :=
  match e with
  | Call f_field_allocate [_; Ref v]
  | Call f_field_aux_allocate [_; Ref v]
  | Call f_interp_dens_species_allocate [_; Ref v; _]
  | Call f_interp_dens_net_allocate [_; Ref v]
  | Call f_particle_allocate [_; Ref v; _] => Some v
  | _ => None
  end.

Definition released_store (e : event) : option var :=
  match e with
  | Call f_grid_deallocate [Ref v]
  | Call f_field_deallocate [_; Ref v]
  | Call f_interp_dens_net_deallocate [_; Ref v]
  | Call f_interp_dens_species_deallocate [_; Ref v]
  | Call f_particle_deallocate [Ref v] => Some v
  | _ => None
  end.

Definition is_store (v : var) (o : option var) : bool :=
  match o with Some v' => var_eqb v v' | None => false end.

(** How many times a run allocates, and releases, the store [v]. *)
Definition allocations (v : var) (tr : list event) : nat :=
  List.length (filter (fun e => is_store v (allocated_store e)) tr).

Definition releases (v : var) (tr : list event) : nat :=
  List.length (filter (fun e => is_store v (released_store e)) tr).

(** The phase of the cycle a call belongs to; timers and console lines
    belong to none. *)
Definition phase (e : event) : option nat :=
  match e with
  | Call f_setZeroDensities _ => Some 0%nat
  | Call f_mover_PC _ | Call f_mover_PC_GPU_basic _ => Some 1%nat
  | Call f_interpP2G _ | Call f_interpP2G_GPU_basic _ => Some 2%nat
  | Call f_applyBCids _ => Some 3%nat
  | Call f_sumOverSpecies _ => Some 4%nat
  | Call f_applyBCscalarDensN _ => Some 5%nat
  | Call f_VTK_Write_Vectors _ | Call f_VTK_Write_Scalars _ => Some 6%nat
  | _ => None
  end.

Definition phases (tr : list event) : list nat :=
  flat_map (fun e => match phase e with Some n => [n] | None => [] end) tr.

Definition is_snapshot (e : event) : bool :=
  match e with
  | Call f_VTK_Write_Vectors _ | Call f_VTK_Write_Scalars _ => true
  | _ => false
  end.

(** ** More ways to read the index, a trace and an outcome *)

(** No two nodes of the mesh share a flat index. *)
Definition injective_on_mesh (g : grid) : Prop :=
  forall i j k i' j' k',
    in_mesh g i j k -> in_mesh g i' j' k' ->
    flat_index g i j k = flat_index g i' j' k' ->
    (i, j, k) = (i', j', k').

(** The flat index of every node is below the number of nodes. *)
Definition below_node_count (g : grid) : Prop :=
  forall i j k,
    in_mesh g i j k -> flat_index g i j k < nxn g * nyn g * nzn g.

(** The cycle numbers a run announces on the console, in order. *)
Definition announced (tr : list event) : list Z :=
  flat_map (fun e =>
    match e with
    | Cout [Str s; Num z] => if String.eqb s "   cycle = " then [z] else []
    | _ => []
    end) tr.

Definition callee_code (f : callee) : nat :=
  match f with
  | f_readInputFile => 0 | f_printParameters => 1 | f_saveParameters => 2
  | f_cpuSecond => 3 | f_setGrid => 4 | f_field_allocate => 5
  | f_field_aux_allocate => 6 | f_interp_dens_species_allocate => 7
  | f_interp_dens_net_allocate => 8 | f_particle_allocate => 9
  | f_initGEM => 10 | f_setZeroDensities => 11 | f_mover_PC => 12
  | f_mover_PC_GPU_basic => 13 | f_interpP2G => 14
  | f_interpP2G_GPU_basic => 15 | f_applyBCids => 16
  | f_sumOverSpecies => 17 | f_applyBCscalarDensN => 18
  | f_VTK_Write_Vectors => 19 | f_VTK_Write_Scalars => 20
  | f_grid_deallocate => 21 | f_field_deallocate => 22
  | f_interp_dens_net_deallocate => 23
  | f_interp_dens_species_deallocate => 24 | f_particle_deallocate => 25
  end%nat.

Definition is_call_of (f : callee) (e : event) : bool :=
  match e with
  | Call f' _ => Nat.eqb (callee_code f) (callee_code f')
  | _ => false
  end.

(** How many times a run calls [f]. *)
Definition calls_of (f : callee) (tr : list event) : nat :=
  List.length (filter (is_call_of f) tr).

(** The replica a variable belongs to; the grid, the parameters and the
    command line belong to none. *)
Definition var_replica (v : var) : option replica :=
  match v with
  | v_argc | v_argv | v_param | v_grd => None
  | v_field r | v_field_aux r | v_ids r | v_ids_at r _ | v_idn r
  | v_idn_rhon r | v_part r | v_part_at r _ => Some r
  end.

Definition arg_replicas (args : list arg) : list replica :=
  flat_map (fun a =>
    match a with
    | Ref v => match var_replica v with Some r => [r] | None => [] end
    | _ => []
    end) args.

(** The replica a routine is written for, by its name. *)
Definition callee_replica (f : callee) : option replica :=
  match f with
  | f_mover_PC | f_interpP2G => Some CPU
  | f_mover_PC_GPU_basic | f_interpP2G_GPU_basic => Some GPU
  | _ => None
  end.

(** A call is handed stores of one replica only, the one its routine is
    written for when the name tells; a snapshot carries the tag of the
    replica it writes. *)
Definition well_routed (e : event) : bool :=
  match e with
  | Call f args =>
      match arg_replicas args with
      | [] => true
      | r :: rs =>
          forallb (replica_eqb r) rs
          && match callee_replica f with
             | Some r' => replica_eqb r r'
             | None => true
             end
          && forallb (fun a =>
               match a with
               | Tag s =>
                   String.eqb s
                     (match r with CPU => "cpu" | GPU => "gpu" end)
               | _ => true
               end) args
      end
  | _ => true
  end.

(** The indices of the array cells a call is handed. *)
Definition indexed_cells (e : event) : list Z :=
  match e with
  | Call _ args =>
      flat_map (fun a =>
        match a with
        | Ref (v_ids_at _ i) | Ref (v_part_at _ i) => [i]
        | _ => []
        end) args
  | _ => []
  end.

(** Two outcomes end alike as far as replica [r] is concerned. *)
Definition agree_on {A : Type} (r : replica) (o o' : outcome A) : Prop :=
  match o, o' with
  | Done _ st, Done _ st' => sel r st = sel r st'
  | Fail e, Fail e' => e = e'
  | _, _ => False
  end.

(** [m] lets replica [r] evolve on its own: started in two states that
    hold the same replica [r], it ends alike for [r]. *)
Inductive independent {A : Type} (r : replica) (m : M A) : Prop :=
| Independent :
    (forall st st', sel r st = sel r st' ->
       agree_on r (snd (m st)) (snd (m st'))) ->
    independent r m.

(** ** Vocabulary for the proofs *)

(** [m] never fails: it emits [tr] and changes the state by [f]. *)
Definition steps (m : M unit) (tr : list event) (f : state -> state) : Prop :=
  forall st, m st = (tr, Done tt (f st)).

(** [m] fails with [e] after emitting [tr]. *)
Definition stops {A : Type} (m : M A) (tr : list event) (e : failure) : Prop :=
  forall st, m st = (tr, Fail e).

(** [m] never fails and emits [tr], whatever the state. *)
Definition total (m : M unit) (tr : list event) : Prop :=
  exists f, steps m tr f.

(** [m] keeps [Inv]: started in a state where [Inv] holds, it ends, if it
    ends, in a state where [Inv] holds. *)
Inductive keeps {A : Type} (Inv : state -> Prop) (m : M A) : Prop :=
| Keeps :
    (forall st, Inv st ->
       match snd (m st) with
       | Done _ st' => Inv st'
       | Fail _ => True
       end) ->
    keeps Inv m.

(** A list of phases that is sorted and starts no lower than [n]. *)
Definition sorted_from (n : nat) (l : list nat) : Prop :=
  StronglySorted le l /\ Forall (le n) l.

Definition startup_trace (p : parameters) : list event :=
  read_input_trace ++ allocate_trace p ++ initialization_trace.

Definition shutdown_trace (p : parameters) : list event :=
  release_trace p ++ timing_trace.

End Driver.

Arguments Fail {FPinterp EMfield EMfield_aux particles A} f.
Arguments Call {FPinterp} f args.
Arguments New {FPinterp} v n.
Arguments Cout {FPinterp} items.
Arguments Str {FPinterp} s.
Arguments Num {FPinterp} z.
Arguments Dbl {FPinterp} t.
Arguments mesh_comparisons {GridOther} g a b.
Arguments read_input_trace {FPinterp}.
Arguments field_allocations {FPinterp}.
Arguments species_allocations {FPinterp} isp.
Arguments particle_allocations {FPinterp} isp.
Arguments allocate_trace {FPinterp ParamOther} p.
Arguments initialization_trace {FPinterp}.
Arguments banner {FPinterp} cycle.
Arguments zero_trace {FPinterp ParamOther} p.
Arguments mover_calls {FPinterp} isp.
Arguments move_trace {FPinterp ParamOther} p.
Arguments interp_calls {FPinterp} isp.
Arguments bc_calls {FPinterp} isp.
Arguments sum_calls {FPinterp ParamOther} p.
Arguments interpolate_trace {FPinterp ParamOther} p.
Arguments snapshots {FPinterp} cycle.
Arguments output_trace {FPinterp ParamOther} p cycle.
Arguments cycle_prefix {FPinterp ParamOther} p cycle.
Arguments cycle_trace {FPinterp ParamOther} p cycle.
Arguments simulation_trace {FPinterp ParamOther} p.
Arguments release_calls {FPinterp} isp.
Arguments release_trace {FPinterp ParamOther} p.
Arguments timing_trace {FPinterp}.
Arguments startup_trace {FPinterp ParamOther} p.
Arguments shutdown_trace {FPinterp ParamOther} p.

Notation "m1 ;; m2" := (bind m1 (fun _ => m2))
  (at level 61, right associativity).

(** ** Collaborators under a richer configuration

    The parameter loader keeps in [param_other] whatever the input file
    configures beyond the four fields [main] reads.  [world_over h W] is the
    world [W] run on parameters that configure more: [h] gives back the
    part of the configuration that [W] knows. *)

Definition known_part {P P' : Type} (h : P' -> P) (p : parameters P')
  : parameters P :=
  {| ns := ns p; ncycles := ncycles p; first_cycle_n := first_cycle_n p;
     FieldOutputCycle := FieldOutputCycle p;
     param_other := h (param_other p) |}.

Definition world_over {FPinterp P P' GridOther EMfield EMfield_aux particles}
    (h : P' -> P)
    (W : Collaborators FPinterp P GridOther EMfield EMfield_aux particles)
  : Collaborators FPinterp P' GridOther EMfield EMfield_aux particles :=
  {| fzero := fzero;
     fsub := fsub;
     fabs := fabs;
     fmax := fmax;
     to_float := to_float;
     setGrid := fun p => setGrid (known_part h p);
     fresh_field := fresh_field;
     fresh_field_aux := fresh_field_aux;
     fresh_ids := fresh_ids;
     fresh_idn := fresh_idn;
     fresh_part := fresh_part;
     field_allocate := field_allocate;
     field_aux_allocate := field_aux_allocate;
     interp_dens_species_allocate := interp_dens_species_allocate;
     interp_dens_net_allocate := interp_dens_net_allocate;
     particle_allocate := fun p => particle_allocate (known_part h p);
     initGEM := fun p => initGEM (known_part h p);
     mover_PC := fun x f g p => mover_PC x f g (known_part h p);
     mover_PC_GPU_basic := fun x f g p =>
       mover_PC_GPU_basic x f g (known_part h p);
     interpP2G := interpP2G;
     interpP2G_GPU_basic := interpP2G_GPU_basic;
     applyBCids := fun d g p => applyBCids d g (known_part h p);
     sumOverSpecies := sumOverSpecies;
     applyBCscalarDensN := fun a g p =>
       applyBCscalarDensN a g (known_part h p);
     initGEM_cells := fun p => initGEM_cells (known_part h p) |}.

(** ** A small world to run the driver in

    Integers stand for the floating-point values; a field store carries
    nothing, a particle store is one number.  The cell counts are kept in
    [param_other] and [setGrid] adds one per axis.  A density store that
    was never allocated reads [-1] everywhere, an allocated one reads [0];
    [initGEM] overwrites the charge density alone.  Both interpolators
    write the same values, the flat view in row-major order of the nested
    one ([a_flat[(i*nyn + j)*nzn + k] = a[i][j][k]]). *)
Module Toy.

Definition const3 (z : Z) : scalar3 Z :=
  {| nested := fun _ _ _ => z; flat := fun _ => z |}.

Definition deposit (g : grid unit) (x : Z) (a : scalar3 Z) : scalar3 Z :=
  {| nested := fun i j k => nested a i j k + x * (1 + (i * nyn g + j) * nzn g + k);
     flat := fun n => flat a n + x * (1 + n) |}.

Definition add3 (a b : scalar3 Z) : scalar3 Z :=
  {| nested := fun i j k => nested a i j k + nested b i j k;
     flat := fun n => flat a n + flat b n |}.

Definition set_rhon (a : scalar3 Z) (d : interpDensSpecies Z)
  : interpDensSpecies Z :=
  {| ids_moment := fun m =>
       match m with m_rhon => a | _ => ids_moment d m end |}.

#[global] Instance world
  : Collaborators Z (Z * Z * Z) unit unit unit Z := {|
  fzero := 0;
  fsub := Z.sub;
  fabs := Z.abs;
  fmax := Z.max;
  to_float := fun x => x;
  setGrid := fun p =>
    let '(nxc, nyc, nzc) := param_other p in
    {| nxn := nxc + 1; nyn := nyc + 1; nzn := nzc + 1; grid_other := tt |};
  fresh_field := fun _ => tt;
  fresh_field_aux := fun _ => tt;
  fresh_ids := fun _ _ => {| ids_moment := fun _ => const3 (-1) |};
  fresh_idn := fun _ => {| idn_moment := fun _ => const3 (-1) |};
  fresh_part := fun _ _ => -1;
  field_allocate := fun _ f => f;
  field_aux_allocate := fun _ f => f;
  interp_dens_species_allocate := fun _ _ _ =>
    {| ids_moment := fun _ => const3 0 |};
  interp_dens_net_allocate := fun _ _ => {| idn_moment := fun _ => const3 0 |};
  particle_allocate := fun _ _ _ => 0;
  initGEM := fun _ _ f a x d =>
    (f, a, map (fun _ => 1) x, map (set_rhon (const3 1)) d);
  mover_PC := fun x _ _ _ => x + 1;
  mover_PC_GPU_basic := fun x _ _ _ => x + 1;
  interpP2G := fun x d g => set_rhon (deposit g x (ids_moment d m_rhon)) d;
  interpP2G_GPU_basic := fun x d g =>
    set_rhon (deposit g x (ids_moment d m_rhon)) d;
  applyBCids := fun d _ _ => d;
  sumOverSpecies := fun d a _ n =>
    alter_idn_rhon
      (fun _ => fold_left add3
                  (map (fun x => ids_moment x m_rhon) (firstn (Z.to_nat n) a))
                  (const3 0)) d;
  applyBCscalarDensN := fun a _ _ => a;
  initGEM_cells := fun _ _ _ _ x d =>
    conj (length_map (fun _ => 1) x) (length_map (set_rhon (const3 1)) d)
|}.

(** One species, two cycles starting at cycle 1, output every cycle, a
    mesh of 2 x 5 x 1 cells, hence 3 x 6 x 2 nodes. *)
Definition input : parameters (Z * Z * Z) :=
  {| ns := 1; ncycles := 2; first_cycle_n := 1; FieldOutputCycle := 1;
     param_other := (2, 5, 1) |}.

(** The same, with snapshots every second cycle. *)
Definition input_every_2nd : parameters (Z * Z * Z) :=
  {| ns := 1; ncycles := 2; first_cycle_n := 1; FieldOutputCycle := 2;
     param_other := (2, 5, 1) |}.

Definition mesh : grid unit := setGrid input.

(** Two states with the same fields and particles, and densities left over
    from some earlier cycle that differ: 7 everywhere, 9 everywhere. *)
Definition leftover (z : Z) : stores Z unit unit Z :=
  {| field := tt; field_aux := tt;
     ids := [{| ids_moment := fun _ => const3 z |}];
     idn := {| idn_moment := fun _ => const3 z |};
     part := [4] |}.

Definition state_a : state Z unit unit Z :=
  {| cpu := leftover 7; gpu := leftover 7 |}.

Definition state_b : state Z unit unit Z :=
  {| cpu := leftover 9; gpu := leftover 9 |}.

(** A state that holds the same CPU-path replica as [state_a] and another
    accelerator-path replica. *)
Definition state_c : state Z unit unit Z :=
  {| cpu := leftover 7;
     gpu := {| field := tt; field_aux := tt;
               ids := [{| ids_moment := fun _ => const3 3 |}];
               idn := {| idn_moment := fun _ => const3 3 |};
               part := [8] |} |}.

(** Meshes of 2 x 2 x 3, of 3 x 3 x 2 and of 1 x 3 x 2 nodes. *)
Definition mesh_223 : grid unit :=
  {| nxn := 2; nyn := 2; nzn := 3; grid_other := tt |}.
Definition mesh_332 : grid unit :=
  {| nxn := 3; nyn := 3; nzn := 2; grid_other := tt |}.
Definition mesh_132 : grid unit :=
  {| nxn := 1; nyn := 3; nzn := 2; grid_other := tt |}.

(** No species; no cycle; a negative number of species; a zero cadence. *)
Definition input_no_species : parameters (Z * Z * Z) :=
  {| ns := 0; ncycles := 2; first_cycle_n := 1; FieldOutputCycle := 1;
     param_other := (2, 5, 1) |}.
Definition input_no_cycle : parameters (Z * Z * Z) :=
  {| ns := 1; ncycles := 0; first_cycle_n := 1; FieldOutputCycle := 1;
     param_other := (2, 5, 1) |}.
Definition input_negative_ns : parameters (Z * Z * Z) :=
  {| ns := -1; ncycles := 2; first_cycle_n := 1; FieldOutputCycle := 1;
     param_other := (2, 5, 1) |}.

(** *** The verifier of the specification, on runs of the small world *)

(** Modelled from the spec: the "configured threshold" of section 4.8.  The
    driver reads no such value; here the input file configures it next to
    the cell counts, and the collaborators of [world] go on reading the
    cell counts alone. *)
Definition configured_world
  : Collaborators Z (Z * Z * Z * Z) unit unit unit Z :=
  world_over fst world.

Definition threshold (p : parameters (Z * Z * Z * Z)) : Z :=
  snd (param_other p).

(** [input] with the threshold 10 configured. *)
Definition configured_input : parameters (Z * Z * Z * Z) :=
  {| ns := 1; ncycles := 2; first_cycle_n := 1; FieldOutputCycle := 1;
     param_other := (2, 5, 1, 10) |}.

(** Modelled from the spec: section 4.8 for one dual-view quantity [a], the
    greatest |a_nested[i][j][k] - a_flat[k*(nxn+nyn) + j*nxn + i]| over the
    nodes of the mesh. *)
Definition view_error (g : grid unit) (a : scalar3 Z) : Z :=
  fold_left Z.max
    (flat_map (fun i =>
       flat_map (fun j =>
         map (fun k =>
           Z.abs (nested a i j k
                  - flat a (k * (nxn g + nyn g) + j * nxn g + i)))
           (range 0 (nzn g)))
         (range 0 (nyn g)))
       (range 0 (nxn g)))
    0.

Definition moments : list moment :=
  [m_rhon; m_Jx; m_Jy; m_Jz; m_pxx; m_pxy; m_pxz; m_pyy; m_pyz; m_pzz].

Definition net_moments : list net_moment := [n_rhon; n_Jx; n_Jy; n_Jz].

(** Modelled from the spec: "every dual-view quantity" of section 4.8: each
    moment of each species and each aggregate moment, of both replicas (the
    field stores of this world hold nothing). *)
Definition quantities (st : state Z unit unit Z) : list (scalar3 Z) :=
  flat_map (fun r =>
    flat_map (fun d => map (ids_moment d) moments) (ids (sel r st))
    ++ map (idn_moment (idn (sel r st))) net_moments)
    [CPU; GPU].

(** Modelled from the spec: [maxError] of section 4.8 in the state [st]. *)
Definition spec_maxError (g : grid unit) (st : state Z unit unit Z) : Z :=
  fold_left Z.max (map (view_error g) (quantities st)) 0.

(** Modelled from the spec: "After each cycle, computes maxError": one
    value per cycle of the run, computed in the state the cycle left. *)
Definition errors_after_cycles (p : parameters (Z * Z * Z * Z)) : list Z :=
  map (spec_maxError (setGrid (Collaborators := configured_world) p))
      (states_after_cycles (W := configured_world) p).

(** Modelled from the spec: "Exceeding a configured threshold": one flag
    per cycle of the run. *)
Definition breaches (p : parameters (Z * Z * Z * Z)) : list bool :=
  map (fun e => threshold p <? e) (errors_after_cycles p).

(** Some cycle and the next one are both flagged. *)
Fixpoint two_in_succession (l : list bool) : bool :=
  match l with
  | b :: l' =>
      match l' with
      | b' :: _ => (b && b') || two_in_succession l'
      | [] => false
      end
  | [] => false
  end.

(** "The exit status is nonzero whenever two consecutive verifier threshold
    breaches occur"; a run that is cut short counts as nonzero. *)
Definition nonzero_after_two_breaches (p : parameters (Z * Z * Z * Z))
  : Prop :=
  two_in_succession (breaches p) = true ->
  exit_status (run (W := configured_world) p) <> Some 0.

(** *** A world with the exceptional values of IEEE arithmetic

    Integers stand for the finite values; there are two infinities and a
    NaN.  Subtraction, magnitude and maximum treat them as IEEE 754 and C's
    [fmax] do.  The conversion to the narrower format rounds a finite value
    down to a multiple of 4 and overflows to an infinity beyond 1000.  The
    routines leave the stores as they are. *)

Inductive xnum : Type :=
| Fin (z : Z)
| Inf (negative : bool)
| NaN.

Definition xsub (a b : xnum) : xnum :=
  match a, b with
  | NaN, _ | _, NaN => NaN
  | Fin x, Fin y => Fin (x - y)
  | Fin _, Inf s => Inf (negb s)
  | Inf s, Fin _ => Inf s
  | Inf s, Inf s' => if Bool.eqb s s' then NaN else Inf s
  end.

Definition xabs (a : xnum) : xnum :=
  match a with
  | Fin x => Fin (Z.abs x)
  | Inf _ => Inf false
  | NaN => NaN
  end.

(** The order of the values, with NaN put below all of them. *)
Definition xle (a b : xnum) : bool :=
  match a, b with
  | NaN, _ => true
  | _, NaN => false
  | Inf true, _ => true
  | _, Inf true => false
  | _, Inf false => true
  | Inf false, _ => false
  | Fin x, Fin y => x <=? y
  end.

(** C's [fmax]: a NaN argument counts as missing. *)
Definition xmax (a b : xnum) : xnum :=
  match a, b with
  | NaN, _ => b
  | _, NaN => a
  | _, _ => if xle a b then b else a
  end.

Definition xnarrow (a : xnum) : xnum :=
  match a with
  | Fin x =>
      if 1000 <? x then Inf false
      else if x <? -1000 then Inf true
      else Fin (4 * (x / 4))
  | _ => a
  end.

Definition xfinite (a : xnum) : Prop :=
  match a with Fin _ => True | _ => False end.

Definition extended_world
  : Collaborators xnum (Z * Z * Z) unit unit unit Z := {|
  fzero := Fin 0;
  fsub := xsub;
  fabs := xabs;
  fmax := xmax;
  to_float := xnarrow;
  setGrid := fun p =>
    let '(nxc, nyc, nzc) := param_other p in
    {| nxn := nxc + 1; nyn := nyc + 1; nzn := nzc + 1; grid_other := tt |};
  fresh_field := fun _ => tt;
  fresh_field_aux := fun _ => tt;
  fresh_ids := fun _ _ =>
    {| ids_moment := fun _ => {| nested := fun _ _ _ => NaN;
                                 flat := fun _ => NaN |} |};
  fresh_idn := fun _ =>
    {| idn_moment := fun _ => {| nested := fun _ _ _ => NaN;
                                 flat := fun _ => NaN |} |};
  fresh_part := fun _ _ => 0;
  field_allocate := fun _ f => f;
  field_aux_allocate := fun _ f => f;
  interp_dens_species_allocate := fun _ d _ => d;
  interp_dens_net_allocate := fun _ d => d;
  particle_allocate := fun _ x _ => x;
  initGEM := fun _ _ f a x d => (f, a, x, d);
  mover_PC := fun x _ _ _ => x;
  mover_PC_GPU_basic := fun x _ _ _ => x;
  interpP2G := fun _ d _ => d;
  interpP2G_GPU_basic := fun _ d _ => d;
  applyBCids := fun d _ _ => d;
  sumOverSpecies := fun d _ _ _ => d;
  applyBCscalarDensN := fun a _ _ => a;
  initGEM_cells := fun _ _ _ _ _ _ => conj eq_refl eq_refl
|}.

(** One species whose charge density, and a net charge density, are [a] in
    the CPU-path replica and [b] in the accelerator-path one. *)
Definition xstate (a b : scalar3 xnum) : state xnum unit unit Z :=
  {| cpu := {| field := tt; field_aux := tt;
               ids := [{| ids_moment := fun _ => a |}];
               idn := {| idn_moment := fun _ => a |};
               part := [0] |};
     gpu := {| field := tt; field_aux := tt;
               ids := [{| ids_moment := fun _ => b |}];
               idn := {| idn_moment := fun _ => b |};
               part := [0] |} |}.

(** Nested views that hold 7 j + 3 k at the node (i, j, k), except for a
    NaN along j = 1, against flat views that hold 0. *)
Definition state_x : state xnum unit unit Z :=
  let a := {| nested := fun _ j k => if j =? 1 then NaN else Fin (7 * j + 3 * k);
              flat := fun _ => Fin 0 |} in
  xstate a a.

(** On the mesh of 1 x 3 x 2 nodes: nested views that hold 4 k + j + i at
    the node (i, j, k), and flat views that hold n at the index n. *)
Definition state_y : state xnum unit unit Z :=
  let a := {| nested := fun i j k => Fin (k * 4 + j + i);
              flat := fun n => Fin n |} in
  xstate a a.

End Toy.

(** * Facts about the driver *)

Section Facts.

Context {FPinterp ParamOther GridOther EMfield EMfield_aux particles : Type}.
Context {W : Collaborators FPinterp ParamOther GridOther EMfield EMfield_aux
               particles}.

#[local] Abbreviation state := (state FPinterp EMfield EMfield_aux particles).
#[local] Abbreviation event := (event FPinterp).
#[local] Abbreviation M := (M FPinterp EMfield EMfield_aux particles).
#[local] Abbreviation parameters := (parameters ParamOther).
#[local] Abbreviation grid := (grid GridOther).
#[local] Abbreviation steps :=
  (steps (FPinterp := FPinterp) (EMfield := EMfield)
     (EMfield_aux := EMfield_aux) (particles := particles)).
#[local] Abbreviation stops :=
  (stops (FPinterp := FPinterp) (EMfield := EMfield)
     (EMfield_aux := EMfield_aux) (particles := particles)).
#[local] Abbreviation total :=
  (total (FPinterp := FPinterp) (EMfield := EMfield)
     (EMfield_aux := EMfield_aux) (particles := particles)).
#[local] Abbreviation keeps :=
  (keeps (FPinterp := FPinterp) (EMfield := EMfield)
     (EMfield_aux := EMfield_aux) (particles := particles)).

(** ** Ranges *)

Lemma range_empty (lo hi : Z) : hi <= lo -> range lo hi = [].
Proof.
  intros H. unfold range.
  replace (Z.to_nat (hi - lo)) with O by lia. reflexivity.
Qed.

Lemma range_cons (lo hi : Z) :
  lo < hi -> range lo hi = lo :: range (lo + 1) hi.
Proof.
  intros H. unfold range.
  replace (Z.to_nat (hi - lo)) with (S (Z.to_nat (hi - (lo + 1)))) by lia.
  cbn [seq map]. f_equal; [lia|].
  rewrite <- seq_shift, map_map.
  apply map_ext. intros n. lia.
Qed.

Lemma in_range (lo hi i : Z) : In i (range lo hi) <-> lo <= i < hi.
Proof.
  unfold range. rewrite in_map_iff. split.
  - intros (n & <- & Hn). apply in_seq in Hn. lia.
  - intros H. exists (Z.to_nat (i - lo)). split; [lia|].
    apply in_seq. lia.
Qed.

Lemma length_range (lo hi : Z) : length (range lo hi) = Z.to_nat (hi - lo).
Proof. unfold range. now rewrite length_map, length_seq. Qed.

Lemma fold_left_flat_map {A B C : Type} (f : A -> C -> A) (h : B -> list C)
    (l : list B) (a : A) :
  fold_left f (flat_map h l) a =
  fold_left (fun acc x => fold_left f (h x) acc) l a.
Proof.
  revert a. induction l as [|x l IH]; intros a; [reflexivity|].
  cbn [flat_map fold_left]. now rewrite fold_left_app, IH.
Qed.

Lemma fold_left_map {A B C : Type} (f : A -> C -> A) (h : B -> C)
    (l : list B) (a : A) :
  fold_left f (map h l) a = fold_left (fun acc x => f acc (h x)) l a.
Proof.
  revert a. induction l as [|x l IH]; intros a; [reflexivity|].
  cbn [map fold_left]. apply IH.
Qed.

Lemma fold_left_ext {A B : Type} (f f' : A -> B -> A) (l : list B) (a : A) :
  (forall x y, f x y = f' x y) -> fold_left f l a = fold_left f' l a.
Proof.
  intros H. revert a. induction l as [|y l IH]; intros a; [reflexivity|].
  cbn [fold_left]. now rewrite H, IH.
Qed.

(** ** Arrays *)

Lemma length_alter_nat {A : Type} (f : A -> A) n (a : list A) :
  List.length (alter_nat f n a) = List.length a.
Proof.
  revert n. induction a as [|x a IH]; intros [|n]; cbn; auto.
Qed.

Lemma length_alter_cell {A : Type} (f : A -> A) i (a : list A) :
  List.length (alter_cell f i a) = List.length a.
Proof.
  unfold alter_cell. destruct (i <? 0); [reflexivity|].
  apply length_alter_nat.
Qed.

Lemma alter_nat_last {A : Type} (f : A -> A) n (l1 : list A) x l2 :
  n = List.length l1 ->
  alter_nat f n (l1 ++ x :: l2) = l1 ++ f x :: l2.
Proof.
  intros ->. induction l1 as [|y l1 IH]; cbn; [reflexivity | now rewrite IH].
Qed.

(** A loop that rewrites cell [i] at step [i], for [i] from [0] on. *)
Lemma fold_alter_seq {A : Type} (F : nat -> A -> A) (h : nat -> A) n tail :
  fold_left (fun a i => alter_nat (F i) i a) (seq 0 n)
            (map h (seq 0 n) ++ tail) =
  map (fun i => F i (h i)) (seq 0 n) ++ tail.
Proof.
  revert tail. induction n as [|n IH]; intros tail; [reflexivity|].
  rewrite seq_S, !map_app, fold_left_app. cbn [map fold_left plus].
  rewrite <- !app_assoc. cbn [app]. rewrite IH.
  apply alter_nat_last. now rewrite length_map, length_seq.
Qed.

Lemma fold_alter_range {A : Type} (F : Z -> A -> A) (h : Z -> A) n :
  fold_left (fun a i => alter_cell (F i) i a) (range 0 n)
            (map h (range 0 n)) =
  map (fun i => F i (h i)) (range 0 n).
Proof.
  unfold range. rewrite fold_left_map, !map_map.
  rewrite (fold_left_ext
             (fun a k => alter_cell (F (0 + Z.of_nat k)) (0 + Z.of_nat k) a)
             (fun a k => alter_nat (F (Z.of_nat k)) k a)).
  - rewrite <- (app_nil_r (map _ _)).
    rewrite (fold_alter_seq (fun k => F (Z.of_nat k))
               (fun k => h (Z.of_nat k))).
    now rewrite app_nil_r.
  - intros a k. unfold alter_cell. cbn [Z.add].
    destruct (Z.ltb_spec (Z.of_nat k) 0); [lia|].
    now rewrite Nat2Z.id.
Qed.

Lemma map_const_length {A B : Type} (c : B) (l l' : list A) :
  List.length l = List.length l' ->
  map (fun _ => c) l = map (fun _ => c) l'.
Proof.
  revert l'. induction l as [|x l IH]; intros [|x' l'] H; cbn in *;
    try discriminate; [reflexivity|].
  f_equal. apply IH. lia.
Qed.

(** ** Running the monad *)

Lemma steps_call c args f : steps (call c args f) [Call c args] f.
Proof. intros st. reflexivity. Qed.

Lemma steps_cout items : steps (cout items) [Cout items] id.
Proof. intros st. reflexivity. Qed.

Lemma steps_ret : steps (ret tt) [] id.
Proof. intros st. reflexivity. Qed.

Lemma steps_new v n f : 0 <= n -> steps (new_array v n f) [New v n] f.
Proof.
  intros H st. unfold new_array.
  destruct (Z.ltb_spec n 0); [lia | reflexivity].
Qed.

Lemma stops_new v n f :
  n < 0 -> stops (new_array v n f) [] bad_array_new_length.
Proof.
  intros H st. unfold new_array.
  destruct (Z.ltb_spec n 0); [reflexivity | lia].
Qed.

Lemma steps_bind m1 m2 t1 t2 f1 f2 :
  steps m1 t1 f1 -> steps m2 t2 f2 ->
  steps (m1 ;; m2) (t1 ++ t2) (fun st => f2 (f1 st)).
Proof.
  intros H1 H2 st. unfold bind. rewrite H1, H2. reflexivity.
Qed.

Lemma stops_bind_l {A B : Type} (m : M A) (k : A -> M B) t e :
  stops m t e -> stops (bind m k) t e.
Proof. intros H st. unfold bind. rewrite H. reflexivity. Qed.

Lemma stops_bind_r {B : Type} m1 (m2 : M B) t1 t2 f1 e :
  steps m1 t1 f1 -> stops m2 t2 e -> stops (m1 ;; m2) (t1 ++ t2) e.
Proof.
  intros H1 H2 st. unfold bind. rewrite H1, H2. reflexivity.
Qed.

Lemma steps_foreach (body : Z -> M unit) tr f l :
  (forall i, In i l -> steps (body i) (tr i) (f i)) ->
  steps (foreach l body) (flat_map tr l)
        (fun st => fold_left (fun s i => f i s) l st).
Proof.
  induction l as [|i l IH]; intros H.
  - apply steps_ret.
  - cbn [foreach flat_map fold_left].
    apply (steps_bind (f1 := f i)
             (f2 := fun st => fold_left (fun s i => f i s) l st)).
    + apply H. now left.
    + apply IH. intros j Hj. apply H. now right.
Qed.

Lemma stops_foreach_head (body : Z -> M unit) t e i l :
  stops (body i) t e -> stops (foreach (i :: l) body) t e.
Proof. intros H. cbn [foreach]. now apply stops_bind_l. Qed.

Lemma total_bind m1 m2 t1 t2 :
  total m1 t1 -> total m2 t2 -> total (m1 ;; m2) (t1 ++ t2).
Proof.
  intros [f1 H1] [f2 H2]. eexists. apply (steps_bind H1 H2).
Qed.

Lemma total_call c args f : total (call c args f) [Call c args].
Proof. eexists. apply steps_call. Qed.

Lemma total_cout items : total (cout items) [Cout items].
Proof. eexists. apply steps_cout. Qed.

Lemma total_call_then c args f m t :
  total m t -> total (call c args f ;; m) (Call c args :: t).
Proof. intros H. apply (total_bind (total_call c args f) H). Qed.

Lemma total_cout_then items m t :
  total m t -> total (cout items ;; m) (Cout items :: t).
Proof. intros H. apply (total_bind (total_cout items) H). Qed.

Lemma total_new_then v n f m t :
  0 <= n -> total m t -> total (new_array v n f ;; m) (New v n :: t).
Proof.
  intros Hn H.
  apply (total_bind (t1 := [New v n])); [|exact H].
  eexists. now apply steps_new.
Qed.

Lemma total_foreach (body : Z -> M unit) tr l :
  (forall i, total (body i) (tr i)) ->
  total (foreach l body) (flat_map tr l).
Proof.
  intros Hb. induction l as [|i l IH].
  - eexists. apply steps_ret.
  - cbn [foreach flat_map]. apply total_bind; [apply Hb | exact IH].
Qed.

Lemma total_for lo hi (body : Z -> M unit) tr :
  (forall i, total (body i) (tr i)) ->
  total (for_range lo hi body) (flat_map tr (range lo hi)).
Proof. intros Hb. now apply total_foreach. Qed.

Lemma total_for_then lo hi (body : Z -> M unit) tr m t :
  (forall i, total (body i) (tr i)) ->
  total m t ->
  total (for_range lo hi body ;; m) (flat_map tr (range lo hi) ++ t).
Proof. intros Hb H. apply total_bind; [now apply total_for | exact H]. Qed.

(** Symbolic execution of a block that cannot fail. *)
Ltac step :=
  first
    [ apply total_call_then
    | apply total_cout_then
    | apply total_for_then; [intros ?|]
    | apply total_call
    | apply total_cout
    | apply total_for; intros ? ].

Ltac run_block := cbn [app]; repeat step.

(** ** The blocks of the driver *)

Lemma read_input_total : total read_input read_input_trace.
Proof. unfold read_input, read_input_trace. run_block. Qed.

Lemma allocate_stores_total p g :
  0 <= ns p -> total (allocate_stores p g) (allocate_trace p).
Proof.
  intros Hn.
  unfold allocate_stores, allocate_trace, field_allocations,
    species_allocations, particle_allocations.
  cbn [app]. do 4 step.
  do 2 (apply total_new_then; [exact Hn|]).
  step. { run_block. }
  step.
  do 2 (apply total_new_then; [exact Hn|]).
  run_block.
Qed.

Lemma allocate_stores_stops p g :
  ns p < 0 ->
  stops (allocate_stores p g) field_allocations bad_array_new_length.
Proof.
  intros Hn st. unfold allocate_stores, bind, call, new_array.
  destruct (Z.ltb_spec (ns p) 0); [reflexivity | lia].
Qed.

Lemma initialization_total p g :
  total (initialization p g) initialization_trace.
Proof. unfold initialization, initialization_trace. run_block. Qed.

Lemma zero_densities_steps p g :
  steps (zero_densities p g) (zero_trace p)
        (fun st => upd GPU (zero_stores g (ns p))
                     (upd CPU (zero_stores g (ns p)) st)).
Proof. intros st. reflexivity. Qed.

Lemma move_particles_total p g : total (move_particles p g) (move_trace p).
Proof. unfold move_particles, move_trace, mover_calls. run_block. Qed.

Lemma interpolate_total p g :
  total (interpolate p g) (interpolate_trace p).
Proof.
  unfold interpolate, interpolate_trace, interp_calls, bc_calls, sum_calls.
  run_block.
Qed.

Lemma write_output_steps (p : parameters) cycle :
  FieldOutputCycle p <> 0 ->
  steps (write_output p cycle) (output_trace p cycle) id.
Proof.
  intros HF st. unfold write_output, output_trace, snapshots.
  destruct (Z.eqb_spec (FieldOutputCycle p) 0) as [E|_]; [contradiction|].
  destruct (Z.rem cycle (FieldOutputCycle p) =? 0); reflexivity.
Qed.

Lemma write_output_stops (p : parameters) cycle :
  FieldOutputCycle p = 0 ->
  stops (write_output p cycle) [] division_by_zero.
Proof.
  intros HF st. unfold write_output, bind.
  rewrite HF. reflexivity.
Qed.

Lemma stops_after {B : Type} m1 (m2 : M B) t1 t2 e :
  total m1 t1 -> stops m2 t2 e -> stops (m1 ;; m2) (t1 ++ t2) e.
Proof. intros [f H1] H2. apply (stops_bind_r H1 H2). Qed.

Lemma pic_cycle_total (p : parameters) (g : grid) cycle :
  FieldOutputCycle p <> 0 -> total (pic_cycle p g cycle) (cycle_trace p cycle).
Proof.
  intros HF. unfold pic_cycle, cycle_trace, cycle_prefix, banner.
  rewrite <- !app_assoc. cbn [app]. do 4 step.
  apply total_bind; [eexists; apply zero_densities_steps|].
  apply total_bind; [apply move_particles_total|].
  apply total_bind; [apply interpolate_total|].
  eexists. now apply write_output_steps.
Qed.

Lemma pic_cycle_stops (p : parameters) (g : grid) cycle :
  FieldOutputCycle p = 0 ->
  stops (pic_cycle p g cycle) (cycle_prefix p cycle) division_by_zero.
Proof.
  intros HF. unfold pic_cycle, cycle_prefix, banner.
  rewrite <- (app_nil_r (interpolate_trace p)).
  cbn [app].
  do 4 (apply (stops_after (t1 := [_])); [apply total_cout|]).
  apply stops_after; [eexists; apply zero_densities_steps|].
  apply stops_after; [apply move_particles_total|].
  apply stops_after; [apply interpolate_total|].
  now apply write_output_stops.
Qed.

Lemma simulation_total (p : parameters) (g : grid) :
  FieldOutputCycle p <> 0 -> total (simulation p g) (simulation_trace p).
Proof.
  intros HF. unfold simulation, simulation_trace, cycles.
  apply total_for. intros c. now apply pic_cycle_total.
Qed.

Lemma simulation_skipped (p : parameters) (g : grid) :
  ncycles p <= 0 -> steps (simulation p g) [] id.
Proof.
  intros Hc. unfold simulation, for_range.
  rewrite range_empty by lia. apply steps_ret.
Qed.

Lemma simulation_trace_skipped (p : parameters) :
  ncycles p <= 0 -> simulation_trace (FPinterp := FPinterp) p = [].
Proof.
  intros Hc. unfold simulation_trace, cycles.
  now rewrite range_empty by lia.
Qed.

Lemma simulation_stops (p : parameters) (g : grid) :
  FieldOutputCycle p = 0 -> 0 < ncycles p ->
  stops (simulation p g) (cycle_prefix p (first_cycle_n p)) division_by_zero.
Proof.
  intros HF Hc. unfold simulation, for_range.
  rewrite range_cons by lia.
  apply stops_foreach_head. now apply pic_cycle_stops.
Qed.

Lemma compare_results_run (p : parameters) (g : grid) st :
  compare_results p g st = (compare_trace p g st, Done tt st).
Proof. reflexivity. Qed.

Lemma steps_foreach_id (body : Z -> M unit) tr l :
  (forall i, steps (body i) (tr i) id) ->
  steps (foreach l body) (flat_map tr l) id.
Proof.
  intros Hb. induction l as [|i l IH].
  - apply steps_ret.
  - cbn [foreach flat_map]. apply (steps_bind (Hb i) IH).
Qed.

Lemma release_resources_steps (p : parameters) :
  steps (release_resources p) (release_trace p) id.
Proof.
  unfold release_resources, release_trace.
  assert (Hloop : steps
            (for_range 0 (ns p) (fun isp =>
               call f_interp_dens_species_deallocate
                 [Ref v_grd; Ref (v_ids_at CPU isp)] id ;;
               call f_particle_deallocate [Ref (v_part_at CPU isp)] id))
            (flat_map release_calls (range 0 (ns p))) id).
  { apply steps_foreach_id. intros i st. reflexivity. }
  intros st. unfold bind, call. rewrite Hloop. reflexivity.
Qed.

Lemma print_timing_steps : steps print_timing timing_trace id.
Proof. intros st. reflexivity. Qed.

(** ** Whole runs *)

(** The blocks before the comparison: input, allocation, initialization
    and the cycle loop. *)
Lemma startup_total (p : parameters) :
  0 <= ns p ->
  total (read_input ;; allocate_stores p (setGrid p) ;;
         initialization p (setGrid p))
        (startup_trace p).
Proof.
  intros Hn. unfold startup_trace.
  apply total_bind; [apply read_input_total|].
  apply total_bind; [now apply allocate_stores_total|].
  apply initialization_total.
Qed.

(** A run that reaches the end of [main]: the trace is made of the start-up,
    the cycles, the two lines of the comparison and the shutdown; the state
    the comparison reads is the final one; the exit status is 0. *)
Lemma run_completes (p : parameters) :
  0 <= ns p -> FieldOutputCycle p <> 0 \/ ncycles p <= 0 ->
  exists st,
    run p = (startup_trace p ++ simulation_trace p
             ++ compare_trace p (setGrid p) st ++ shutdown_trace p,
             Done 0 st).
Proof.
  intros Hn Hc.
  destruct read_input_total as [f1 H1].
  destruct (@allocate_stores_total p (setGrid p) Hn) as [f2 H2].
  destruct (initialization_total p (setGrid p)) as [f3 H3].
  assert (Hs : total (simulation p (setGrid p)) (simulation_trace p)).
  { destruct Hc as [HF|Hz].
    - now apply simulation_total.
    - rewrite simulation_trace_skipped by exact Hz.
      eexists. now apply simulation_skipped. }
  destruct Hs as [f4 H4].
  exists (f4 (f3 (f2 (f1 locals)))).
  unfold run, main, bind.
  rewrite H1, H2, H3, H4, compare_results_run, release_resources_steps,
    print_timing_steps.
  cbn [ret]. unfold startup_trace, shutdown_trace, id.
  rewrite !app_nil_r, <- !app_assoc. reflexivity.
Qed.

(** The two ways a run can stop short. *)
Lemma run_bad_array (p : parameters) :
  ns p < 0 ->
  run p = (read_input_trace ++ field_allocations, Fail bad_array_new_length).
Proof.
  intros Hn. destruct read_input_total as [f1 H1].
  unfold run, main, bind.
  rewrite H1, (allocate_stores_stops p (setGrid p) Hn). reflexivity.
Qed.

Lemma run_division_by_zero (p : parameters) :
  0 <= ns p -> FieldOutputCycle p = 0 -> 0 < ncycles p ->
  run p = (startup_trace p ++ cycle_prefix p (first_cycle_n p),
           Fail division_by_zero).
Proof.
  intros Hn HF Hc.
  destruct read_input_total as [f1 H1].
  destruct (@allocate_stores_total p (setGrid p) Hn) as [f2 H2].
  destruct (initialization_total p (setGrid p)) as [f3 H3].
  unfold run, main, bind.
  rewrite H1, H2, H3, (simulation_stops p (setGrid p) HF Hc).
  unfold startup_trace. now rewrite <- !app_assoc.
Qed.

(** ** The comparison *)

Lemma fold_mesh_comparisons (g : grid) (st : state) a b acc :
  fold_left (compare_step st) (mesh_comparisons g a b) acc =
  fold_left (fun acc i =>
    fold_left (fun acc j =>
      fold_left (fun acc k =>
        to_float (fmax acc (fabs (fsub
          (nested (scalar_of st a) i j k)
          (flat (scalar_of st b) (k * (nxn g + nyn g) + j * nxn g + i))))))
        (range 0 (nzn g)) acc)
      (range 0 (nyn g)) acc)
    (range 0 (nxn g)) acc.
Proof.
  unfold mesh_comparisons. rewrite fold_left_flat_map.
  revert acc. induction (range 0 (nxn g)) as [|i li IHi]; intros acc;
    [reflexivity|].
  cbn [fold_left]. rewrite <- IHi. f_equal.
  rewrite fold_left_flat_map. clear IHi.
  revert acc. induction (range 0 (nyn g)) as [|j lj IHj]; intros acc;
    [reflexivity|].
  cbn [fold_left]. rewrite <- IHj. f_equal.
  now rewrite fold_left_map.
Qed.

Lemma maxErrorIdsRhon_fold (p : parameters) (g : grid) (st : state) :
  maxErrorIdsRhon p g st =
  fold_left (compare_step st) (ids_comparisons p g) fzero.
Proof.
  unfold maxErrorIdsRhon, ids_comparisons. rewrite fold_left_flat_map.
  generalize (fzero (Collaborators := W)).
  induction (range 0 (ns p)) as [|isp l IH]; intros acc; [reflexivity|].
  cbn [fold_left]. rewrite <- IH. f_equal.
  now rewrite fold_mesh_comparisons.
Qed.

Lemma maxErrorIdnRhon_fold (g : grid) (st : state) :
  maxErrorIdnRhon g st = fold_left (compare_step st) (idn_comparisons g) fzero.
Proof.
  unfold maxErrorIdnRhon, idn_comparisons.
  now rewrite fold_mesh_comparisons.
Qed.

Lemma in_mesh_comparisons (g : grid) a b c :
  In c (mesh_comparisons g a b) <->
  lhs c = a /\ rhs c = b /\ in_mesh g (at_i c) (at_j c) (at_k c) /\
  at_flat c = flat_index g (at_i c) (at_j c) (at_k c).
Proof.
  unfold mesh_comparisons, in_mesh. rewrite in_flat_map. split.
  - intros (i & Hi & H). apply in_flat_map in H. destruct H as (j & Hj & H).
    apply in_map_iff in H. destruct H as (k & <- & Hk).
    apply in_range in Hi, Hj, Hk. cbn. intuition lia.
  - intros (<- & <- & (Hi & Hj & Hk) & Hf).
    exists (at_i c). split; [now apply in_range|].
    apply in_flat_map. exists (at_j c). split; [now apply in_range|].
    apply in_map_iff. exists (at_k c). split; [|now apply in_range].
    destruct c; cbn in *. now subst.
Qed.

Lemma in_ids_comparisons (p : parameters) (g : grid) c :
  In c (ids_comparisons p g) <->
  exists isp, 0 <= isp < ns p /\
    lhs c = species_rhon CPU isp /\ rhs c = species_rhon GPU isp /\
    in_mesh g (at_i c) (at_j c) (at_k c) /\
    at_flat c = flat_index g (at_i c) (at_j c) (at_k c).
Proof.
  unfold ids_comparisons. rewrite in_flat_map. split.
  - intros (isp & Hs & H). exists isp. apply in_range in Hs.
    apply in_mesh_comparisons in H. tauto.
  - intros (isp & Hs & H). exists isp. split; [now apply in_range|].
    now apply in_mesh_comparisons.
Qed.

Lemma compare_step_deviation (st : state) (acc : FPinterp) (c : comparison) :
  compare_step st acc c = to_float (fmax acc (deviation st c)).
Proof. reflexivity. Qed.

(** When [fmax] is the binary maximum of an order and [to_float] is
    monotone and leaves a [float] as it is, the fold of [compare_step] from
    a [float] is the maximum of the start value and the deviations as
    converted to [float]: it bounds each of them and is one of them. *)
Lemma fold_compare_bounds (leq : FPinterp -> FPinterp -> Prop)
    (st : state) (l : list comparison) (acc : FPinterp) :
  (forall a, leq a a) ->
  (forall a b c, leq a b -> leq b c -> leq a c) ->
  (forall a b, leq a (fmax a b)) ->
  (forall a b, leq b (fmax a b)) ->
  (forall a b, leq a b -> leq (to_float a) (to_float b)) ->
  (forall a, to_float (to_float a) = to_float a) ->
  to_float acc = acc ->
  leq acc (fold_left (compare_step st) l acc) /\
  Forall (fun c => leq (to_float (deviation st c))
                       (fold_left (compare_step st) l acc)) l.
Proof.
  intros Hrefl Htrans Hl Hr Hmono Hidem. revert acc.
  induction l as [|c l IH]; intros acc Hacc; cbn [fold_left].
  - split; [apply Hrefl | constructor].
  - destruct (IH (compare_step st acc c)) as [Hstep Hall].
    { rewrite compare_step_deviation. apply Hidem. }
    rewrite compare_step_deviation in Hstep. split.
    + apply Htrans with (b := to_float (fmax acc (deviation st c)));
        [|exact Hstep].
      rewrite <- Hacc at 1. apply Hmono, Hl.
    + constructor; [|exact Hall].
      apply Htrans with (b := to_float (fmax acc (deviation st c)));
        [|exact Hstep].
      apply Hmono, Hr.
Qed.

Lemma fold_compare_attained (st : state) (l : list comparison)
    (acc : FPinterp) :
  (forall a b, fmax a b = a \/ fmax a b = b) ->
  (forall a, to_float (to_float a) = to_float a) ->
  to_float acc = acc ->
  fold_left (compare_step st) l acc = acc \/
  exists c, In c l /\
    fold_left (compare_step st) l acc = to_float (deviation st c).
Proof.
  intros Hmax Hidem. revert acc.
  induction l as [|c l IH]; intros acc Hacc; cbn [fold_left]; [now left|].
  destruct (IH (compare_step st acc c)) as [E|(c' & Hin & E)].
  - rewrite compare_step_deviation. apply Hidem.
  - rewrite E, compare_step_deviation.
    destruct (Hmax acc (deviation st c)) as [-> | ->].
    + left. exact Hacc.
    + right. exists c. split; [now left | reflexivity].
  - right. exists c'. split; [now right | exact E].
Qed.

Lemma flat_index_strides (g : grid) (i j k : Z) :
  flat_index g (i + 1) j k = flat_index g i j k + 1 /\
  flat_index g i (j + 1) k = flat_index g i j k + nxn g /\
  flat_index g i j (k + 1) = flat_index g i j k + (nxn g + nyn g).
Proof. unfold flat_index. repeat split; ring. Qed.

(** The index arithmetic of the comparison stays inside [int] on every
    mesh of at most 2^14 nodes per axis. *)
Lemma flat_index_fits_int (g : grid) (i j k : Z) :
  in_mesh g i j k ->
  nxn g <= 2 ^ 14 -> nyn g <= 2 ^ 14 -> nzn g <= 2 ^ 14 ->
  0 <= k * (nxn g + nyn g) < 2 ^ 31 /\
  0 <= j * nxn g < 2 ^ 31 /\
  0 <= k * (nxn g + nyn g) + j * nxn g < 2 ^ 31 /\
  0 <= flat_index g i j k < 2 ^ 31.
Proof.
  unfold in_mesh, flat_index. intros (Hi & Hj & Hk) Hx Hy Hz.
  change (2 ^ 14) with 16384 in *. change (2 ^ 31) with 2147483648.
  assert (0 <= k * (nxn g + nyn g) <= 16383 * 32768) by nia.
  assert (0 <= j * nxn g <= 16383 * 16384) by nia.
  lia.
Qed.

(** Nodes [(i, j, k)] and [(i, j + nxn, k - 1)] share a flat index exactly
    on the meshes with [nyn = nxn * (nxn - 1)]. *)
Lemma flat_index_collision (g : grid) (i j k : Z) :
  flat_index g i (j + nxn g) (k - 1) = flat_index g i j k <->
  nyn g = nxn g * (nxn g - 1).
Proof. unfold flat_index. split; intros H; nia. Qed.

(** C1: for every dual-view scalar the comparison reads and every in-range
    node (i, j, k), the flat view is read at k*(nxn + nyn) + j*nxn + i: the
    two printed maxima are the folds of [compare_step] over the listed
    comparisons; each listed comparison is at an in-range node and reads the
    flat view at that index; every in-range node is compared, for the net
    charge density and for each species; the stride of i is 1 (fastest),
    that of j is nxn, that of k is nxn + nyn (slowest). *)
Theorem flat_index_of_comparisons (p : parameters) (g : grid) (st : state) :
  maxErrorIdsRhon p g st =
    fold_left (compare_step st) (ids_comparisons p g) fzero /\
  maxErrorIdnRhon g st =
    fold_left (compare_step st) (idn_comparisons g) fzero /\
  Forall (fun c =>
            in_mesh g (at_i c) (at_j c) (at_k c) /\
            at_flat c = at_k c * (nxn g + nyn g) + at_j c * nxn g + at_i c)
         (ids_comparisons p g ++ idn_comparisons g) /\
  (forall i j k, in_mesh g i j k ->
     In {| lhs := net_rhon CPU; at_i := i; at_j := j; at_k := k;
           rhs := net_rhon CPU;
           at_flat := k * (nxn g + nyn g) + j * nxn g + i |}
        (idn_comparisons g) /\
     forall isp, 0 <= isp < ns p ->
       In {| lhs := species_rhon CPU isp; at_i := i; at_j := j; at_k := k;
             rhs := species_rhon GPU isp;
             at_flat := k * (nxn g + nyn g) + j * nxn g + i |}
          (ids_comparisons p g)) /\
  (forall i j k,
     flat_index g (i + 1) j k = flat_index g i j k + 1 /\
     flat_index g i (j + 1) k = flat_index g i j k + nxn g /\
     flat_index g i j (k + 1) = flat_index g i j k + (nxn g + nyn g)) /\
  (forall i j k, in_mesh g i j k -> 1 <= nxn g < nxn g + nyn g).
Proof.
  split; [apply maxErrorIdsRhon_fold|].
  split; [apply maxErrorIdnRhon_fold|].
  split.
  { apply Forall_forall. intros c Hc. apply in_app_or in Hc.
    destruct Hc as [Hc|Hc].
    - apply in_ids_comparisons in Hc.
      destruct Hc as (isp & _ & _ & _ & Hm & Hf). now split.
    - apply in_mesh_comparisons in Hc.
      destruct Hc as (_ & _ & Hm & Hf). now split. }
  split.
  { intros i j k Hm. split.
    - apply in_mesh_comparisons. cbn. auto.
    - intros isp Hs. apply in_ids_comparisons. exists isp. cbn. auto. }
  split; [apply flat_index_strides|].
  unfold in_mesh. intros i j k H. lia.
Qed.

(** ** Which events a trace holds *)

Lemma Forall_flat_map_all {A B : Type} (P : B -> Prop) (f : A -> list B) l :
  (forall x, Forall P (f x)) -> Forall P (flat_map f l).
Proof.
  intros H. apply Forall_flat_map. apply Forall_forall. intros x _. apply H.
Qed.

Lemma filter_none {A : Type} (P : A -> bool) l :
  Forall (fun e => P e = false) l -> filter P l = [].
Proof.
  induction 1 as [|e l He _ IH]; [reflexivity|].
  cbn [filter]. now rewrite He.
Qed.

(** Every event of an explicit trace fails a boolean test. *)
Ltac none_of :=
  repeat first
    [ apply Forall_nil
    | apply Forall_cons; [reflexivity|]
    | apply Forall_app; split
    | apply Forall_flat_map_all; intros ? ].

Ltac unfold_traces :=
  unfold startup_trace, shutdown_trace, simulation_trace, cycle_trace,
    cycle_prefix, output_trace, read_input_trace, allocate_trace,
    initialization_trace, banner, zero_trace, move_trace, interpolate_trace,
    release_trace, timing_trace, field_allocations, species_allocations,
    particle_allocations, mover_calls, interp_calls, bc_calls, sum_calls,
    snapshots, release_calls.

Lemma startup_no_report (p : parameters) :
  Forall (fun e : event => is_report e = false) (startup_trace (FPinterp := FPinterp) p).
Proof. unfold_traces. none_of. Qed.

Lemma cycle_no_report (p : parameters) c :
  Forall (fun e : event => is_report e = false) (cycle_trace (FPinterp := FPinterp) p c).
Proof.
  unfold_traces.
  destruct (Z.rem c (FieldOutputCycle p) =? 0); none_of.
Qed.

Lemma simulation_no_report (p : parameters) :
  Forall (fun e : event => is_report e = false)
         (simulation_trace (FPinterp := FPinterp) p).
Proof.
  unfold simulation_trace. apply Forall_flat_map_all. intros c.
  apply cycle_no_report.
Qed.

Lemma shutdown_no_report (p : parameters) :
  Forall (fun e : event => is_report e = false)
         (shutdown_trace (FPinterp := FPinterp) p).
Proof. unfold_traces. none_of. Qed.

(** C3 (amended): the comparison runs once per run, after the cycle loop
    has ended and before the stores are released, not after each cycle.
    In a run that reaches the end of [main] the trace is the start-up, then
    the cycles one after the other, then the two lines of the comparison,
    then the shutdown; no other line reports a value of the stores.  The
    first line prints the [fmax]-fold, from zero and in loop order, of
    |idsCPU[is].rhon[i][j][k] - idsGPU[is].rhon_flat[k*(nxn+nyn)+j*nxn+i]|
    over the species and the nodes of the mesh, read in the state the cycle
    loop left, each result of [fmax] converted to the [float] accumulator;
    the second prints one maximum for the net charge density. *)
Theorem comparison_once_after_the_loop (p : parameters) :
  0 <= ns p -> FieldOutputCycle p <> 0 \/ ncycles p <= 0 ->
  exists st,
    final_state (run p) = Some st /\
    trace_of (run p) =
      startup_trace p
      ++ flat_map (cycle_trace p) (cycles p)
      ++ [Cout [Str "Max error idsrhon: ";
                Flt (fold_left (compare_step st)
                       (ids_comparisons p (setGrid p)) fzero)];
          Cout [Str "Max error idnrhon: ";
                Flt (maxErrorIdnRhon (setGrid p) st)]]
      ++ shutdown_trace p /\
    Forall (fun e : event => is_report e = false)
           (startup_trace p ++ flat_map (cycle_trace p) (cycles p)) /\
    Forall (fun e : event => is_report e = false) (shutdown_trace p) /\
    Forall (fun c =>
              exists isp,
                0 <= isp < ns p /\
                lhs c = species_rhon CPU isp /\
                rhs c = species_rhon GPU isp /\
                in_mesh (setGrid p) (at_i c) (at_j c) (at_k c) /\
                at_flat c =
                  at_k c * (nxn (setGrid p) + nyn (setGrid p))
                  + at_j c * nxn (setGrid p) + at_i c)
           (ids_comparisons p (setGrid p)).
Proof.
  intros Hn Hc. destruct (run_completes p Hn Hc) as [st Hrun].
  exists st. rewrite Hrun. unfold final_state, trace_of. cbn [fst snd].
  split; [reflexivity|].
  split.
  { unfold compare_trace. now rewrite maxErrorIdsRhon_fold. }
  split.
  { apply Forall_app. split.
    - apply startup_no_report.
    - apply simulation_no_report. }
  split; [apply shutdown_no_report|].
  apply Forall_forall. intros c Hin.
  apply in_ids_comparisons in Hin. exact Hin.
Qed.

(** C4: the loop nest over the net charge density compares the CPU-path
    store with itself: both views it reads are those of [idnCPU], and what
    the accelerator-path replica holds has no bearing on the maximum.  The
    loop nest over the per-species densities does compare the CPU-path
    replica with the accelerator-path one. *)
Theorem net_comparison_within_cpu (p : parameters) (g : grid) (st : state)
    (f : stores FPinterp EMfield EMfield_aux particles ->
         stores FPinterp EMfield EMfield_aux particles) :
  Forall (fun c =>
            lhs c = net_rhon CPU /\ rhs c = net_rhon CPU /\
            scalar_replica (lhs c) = scalar_replica (rhs c))
         (idn_comparisons g) /\
  maxErrorIdnRhon g st =
    fold_left (compare_step st) (idn_comparisons g) fzero /\
  maxErrorIdnRhon g (upd GPU f st) = maxErrorIdnRhon g st /\
  Forall (fun c =>
            scalar_replica (lhs c) = CPU /\ scalar_replica (rhs c) = GPU)
         (ids_comparisons p g).
Proof.
  split.
  { apply Forall_forall. intros c Hc.
    apply in_mesh_comparisons in Hc. destruct Hc as (-> & -> & _).
    repeat split. }
  split; [apply maxErrorIdnRhon_fold|].
  split; [reflexivity|].
  apply Forall_forall. intros c Hc.
  apply in_ids_comparisons in Hc. destruct Hc as (isp & _ & -> & -> & _).
  split; reflexivity.
Qed.

(** The outcome of [main] as a function of the input, for collaborators
    that return: the two failures of the driver's own statements cut the run
    short, every other run ends in [return 0]. *)
Lemma exit_status_of_run (p : parameters) :
  exit_status (run p) =
    if (ns p <? 0) || ((FieldOutputCycle p =? 0) && (0 <? ncycles p))
    then None else Some 0.
Proof.
  destruct (Z.ltb_spec (ns p) 0) as [Hn|Hn]; cbn [orb].
  { now rewrite run_bad_array. }
  destruct (Z.eqb_spec (FieldOutputCycle p) 0) as [HF|HF]; cbn [andb].
  - destruct (Z.ltb_spec 0 (ncycles p)) as [Hc|Hc].
    + now rewrite run_division_by_zero.
    + destruct (run_completes p Hn (or_intror Hc)) as [st ->]. reflexivity.
  - destruct (run_completes p Hn (or_introl HF)) as [st ->]. reflexivity.
Qed.

(** In no run, whatever the input, is an accelerator-path density store
    allocated, or an auxiliary field store or an accelerator-path particle
    store released. *)
Lemma never_allocated_never_released (p : parameters) (r : replica)
    (isp : Z) :
  (allocations (v_ids_at GPU isp) (trace_of (run p)) = 0 /\
   allocations (v_idn GPU) (trace_of (run p)) = 0 /\
   releases (v_field_aux r) (trace_of (run p)) = 0 /\
   releases (v_part_at GPU isp) (trace_of (run p)) = 0)%nat.
Proof.
  assert (Hshape :
    exists st,
      trace_of (run p) = read_input_trace ++ field_allocations \/
      trace_of (run p) = startup_trace p ++ cycle_prefix p (first_cycle_n p) \/
      trace_of (run p) =
        startup_trace p ++ simulation_trace p
        ++ compare_trace p (setGrid p) st ++ shutdown_trace p).
  { destruct (Z.ltb_spec (ns p) 0) as [Hn|Hn].
    - exists locals. left. now rewrite run_bad_array.
    - destruct (Z.eq_dec (FieldOutputCycle p) 0) as [HF|HF].
      + destruct (Z.ltb_spec 0 (ncycles p)) as [Hc|Hc].
        * exists locals. right. left. now rewrite run_division_by_zero.
        * destruct (run_completes p Hn (or_intror Hc)) as [st ->].
          exists st. now right; right.
      + destruct (run_completes p Hn (or_introl HF)) as [st ->].
        exists st. now right; right. }
  destruct Hshape as [st Hshape].
  assert (Hcycle : forall (P : event -> bool) c,
    Forall (fun e => P e = false) (cycle_prefix p c) ->
    P (Call f_cpuSecond []) = false ->
    Forall (fun e => P e = false) (snapshots c) ->
    Forall (fun e => P e = false) (cycle_trace p c)).
  { intros P c H1 H2 H3. unfold cycle_trace, output_trace.
    apply Forall_app. split; [exact H1|].
    apply Forall_app. split; [|now constructor].
    destruct (Z.rem c (FieldOutputCycle p) =? 0); [exact H3 | constructor]. }
  unfold allocations, releases.
  repeat split; apply length_zero_iff_nil, filter_none;
    (destruct Hshape as [-> | [-> | ->]];
     [ unfold_traces; none_of
     | unfold_traces; none_of
     | apply Forall_app; split; [unfold_traces; none_of|];
       apply Forall_app; split;
         [ unfold simulation_trace; apply Forall_flat_map_all; intros c;
           apply Hcycle; [unfold_traces; none_of | reflexivity
                         | unfold_traces; none_of]
         | unfold compare_trace; unfold_traces; none_of ] ]).
Qed.

(** C6: evaluated on an input with one species and one cycle.  The
    accelerator-path density stores [idsGPU[0]] and [idnGPU] are never
    allocated, although their CPU-path twins are; both auxiliary field
    stores and the accelerator-path particle store are allocated once and
    never released, although the CPU-path particle store is. *)
Theorem stores_allocated_and_released (o : ParamOther) :
  let p := {| ns := 1; ncycles := 1; first_cycle_n := 1;
             FieldOutputCycle := 1; param_other := o |} in
  let tr := trace_of (run p) in
  (allocations (v_ids_at CPU 0) tr = 1 /\ allocations (v_ids_at GPU 0) tr = 0)%nat
  /\ (allocations (v_idn CPU) tr = 1 /\ allocations (v_idn GPU) tr = 0)%nat
  /\ (allocations (v_field_aux CPU) tr = 1
      /\ releases (v_field_aux CPU) tr = 0)%nat
  /\ (allocations (v_field_aux GPU) tr = 1
      /\ releases (v_field_aux GPU) tr = 0)%nat
  /\ (allocations (v_part_at GPU 0) tr = 1
      /\ releases (v_part_at GPU 0) tr = 0)%nat
  /\ (allocations (v_part_at CPU 0) tr = 1
      /\ releases (v_part_at CPU 0) tr = 1)%nat
  /\ (allocations (v_field CPU) tr = 1 /\ releases (v_field CPU) tr = 1)%nat
  /\ (allocations (v_field GPU) tr = 1 /\ releases (v_field GPU) tr = 1)%nat
  /\ (releases (v_ids_at CPU 0) tr = 1 /\ releases (v_idn CPU) tr = 1)%nat.
Proof.
  intros p tr. subst tr.
  destruct (run_completes p) as [st Hrun]; [cbn; lia | left; cbn; lia |].
  rewrite Hrun. unfold trace_of. cbn [fst].
  repeat split; reflexivity.
Qed.

(** ** The state at the entry of the cycle loop *)

Lemma fold_alter_ids (r : replica)
    (F : Z -> interpDensSpecies FPinterp -> interpDensSpecies FPinterp)
    (l : list Z) (st : state) :
  fold_left (fun s i =>
               upd r (with_ids (alter_cell (F i) i (ids (sel r s)))) s) l st =
  upd r (with_ids (fold_left (fun a i => alter_cell (F i) i a) l
                     (ids (sel r st)))) st.
Proof.
  revert st. induction l as [|i l IH]; intros st; cbn [fold_left].
  - destruct r, st as [[] []]; reflexivity.
  - rewrite IH. destruct r, st as [[] []]; reflexivity.
Qed.

Lemma fold_alter_part (Fc Fg : Z -> particles -> particles)
    (l : list Z) (st : state) :
  fold_left (fun s i =>
               (fun s' => upd GPU (with_part
                            (alter_cell (Fg i) i (partGPU s'))) s')
                 (upd CPU (with_part (alter_cell (Fc i) i (partCPU s))) s))
            l st =
  upd GPU (with_part (fold_left (fun a i => alter_cell (Fg i) i a) l
                        (partGPU st)))
    (upd CPU (with_part (fold_left (fun a i => alter_cell (Fc i) i a) l
                           (partCPU st))) st).
Proof.
  revert st. induction l as [|i l IH]; intros st; cbn [fold_left].
  - destruct st as [[] []]; reflexivity.
  - rewrite IH. destruct st as [[] []]; reflexivity.
Qed.

Lemma allocate_stores_locals (p : parameters) (g : grid) :
  0 <= ns p ->
  allocate_stores p g locals = (allocate_trace p, Done tt (allocated p g)).
Proof.
  intros Hn.
  assert (Hsp : steps
    (for_range 0 (ns p) (fun isp =>
       call f_interp_dens_species_allocate
         [Ref v_grd; Ref (v_ids_at CPU isp); Int isp]
         (fun st =>
            upd CPU (with_ids
              (alter_cell (fun d => interp_dens_species_allocate g d isp) isp
                 (idsCPU st))) st)))
    (flat_map species_allocations (range 0 (ns p)))
    (fun st => fold_left (fun s i =>
        upd CPU (with_ids
          (alter_cell (fun d => interp_dens_species_allocate g d i) i
             (ids (sel CPU s)))) s) (range 0 (ns p)) st)).
  { apply steps_foreach. intros i _ st. reflexivity. }
  assert (Hpa : steps
    (for_range 0 (ns p) (fun isp =>
       call f_particle_allocate
         [Ref v_param; Ref (v_part_at CPU isp); Int isp]
         (fun st =>
            upd CPU (with_part
              (alter_cell (fun x => particle_allocate p x isp) isp
                 (partCPU st))) st) ;;
       call f_particle_allocate
         [Ref v_param; Ref (v_part_at GPU isp); Int isp]
         (fun st =>
            upd GPU (with_part
              (alter_cell (fun x => particle_allocate p x isp) isp
                 (partGPU st))) st)))
    (flat_map particle_allocations (range 0 (ns p)))
    (fun st => fold_left (fun s i =>
        (fun s' => upd GPU (with_part
           (alter_cell (fun x => particle_allocate p x i) i (partGPU s'))) s')
          (upd CPU (with_part
             (alter_cell (fun x => particle_allocate p x i) i (partCPU s))) s))
        (range 0 (ns p)) st)).
  { apply steps_foreach. intros i _ st. reflexivity. }
  unfold allocate_stores, bind, call, new_array.
  destruct (Z.ltb_spec (ns p) 0) as [Hneg|_]; [lia|].
  rewrite Hsp, Hpa.
  rewrite fold_alter_ids, fold_alter_part.
  unfold allocate_trace, field_allocations. cbn [app].
  f_equal. f_equal.
  cbn [locals upd sel cpu gpu with_field with_field_aux with_ids with_idn
       with_part field field_aux ids idn part fieldCPU fieldGPU field_auxCPU
       field_auxGPU idsCPU idsGPU idnCPU idnGPU partCPU partGPU].
  rewrite (fold_alter_range
             (fun i d => interp_dens_species_allocate g d i) (fresh_ids CPU)).
  rewrite (fold_alter_range
             (fun i x => particle_allocate p x i) (fresh_part CPU)).
  rewrite (fold_alter_range
             (fun i x => particle_allocate p x i) (fresh_part GPU)).
  reflexivity.
Qed.

Lemma initialization_run (p : parameters) (g : grid) (st : state) :
  initialization p g st =
    (initialization_trace,
     Done tt (upd GPU (init_stores p g) (upd CPU (init_stores p g) st))).
Proof. reflexivity. Qed.

(** The run up to the cycle loop, and the state the loop starts in. *)
Lemma run_from_the_loop (p : parameters) :
  0 <= ns p ->
  run p =
    (startup_trace p
       ++ fst (from_the_loop p (setGrid p) (initialized p (setGrid p))),
     snd (from_the_loop p (setGrid p) (initialized p (setGrid p)))).
Proof.
  intros Hn. destruct read_input_total as [f1 H1].
  assert (Hid : f1 locals = locals).
  { specialize (H1 locals). unfold read_input, bind, call in H1.
    cbn in H1. now inversion H1. }
  unfold run, main.
  change (simulation p (setGrid p);; compare_results p (setGrid p);;
          release_resources p;; print_timing;; ret 0)
    with (from_the_loop p (setGrid p)).
  unfold bind at 1. rewrite H1, Hid.
  unfold bind at 1. rewrite (allocate_stores_locals p (setGrid p) Hn).
  unfold bind at 1. rewrite initialization_run.
  fold (initialized p (setGrid p)).
  destruct (from_the_loop p (setGrid p) (initialized p (setGrid p)))
    as [t o].
  cbn [fst snd]. unfold startup_trace. now rewrite <- !app_assoc.
Qed.

(** C9: evaluated on any input with [ns >= 0].  The cycle loop starts in
    the state [initialized]: each replica is what [initGEM], called with the
    same parameters and grid, made of the stores it was handed.  The
    CPU-path call is handed density cells that went through
    [interp_dens_species_allocate]; the accelerator-path call is handed the
    cells of [idsGPU] as [new] left them, which no allocator has seen. *)
Theorem replicas_at_the_first_cycle (p : parameters) :
  0 <= ns p ->
  run p =
    (startup_trace p
       ++ fst (from_the_loop p (setGrid p) (initialized p (setGrid p))),
     snd (from_the_loop p (setGrid p) (initialized p (setGrid p)))) /\
  cpu (initialized p (setGrid p)) =
    init_stores p (setGrid p)
      {| field := field_allocate (setGrid p) (fresh_field CPU);
         field_aux := field_aux_allocate (setGrid p) (fresh_field_aux CPU);
         ids := map (fun isp =>
                       interp_dens_species_allocate (setGrid p)
                         (fresh_ids CPU isp) isp)
                    (range 0 (ns p));
         idn := interp_dens_net_allocate (setGrid p) (fresh_idn CPU);
         part := map (fun isp => particle_allocate p (fresh_part CPU isp) isp)
                     (range 0 (ns p)) |} /\
  gpu (initialized p (setGrid p)) =
    init_stores p (setGrid p)
      {| field := field_allocate (setGrid p) (fresh_field GPU);
         field_aux := field_aux_allocate (setGrid p) (fresh_field_aux GPU);
         ids := map (fresh_ids GPU) (range 0 (ns p));
         idn := fresh_idn GPU;
         part := map (fun isp => particle_allocate p (fresh_part GPU isp) isp)
                     (range 0 (ns p)) |}.
Proof.
  intros Hn. split; [now apply run_from_the_loop|].
  split; reflexivity.
Qed.

(** ** The exit status *)

Lemma last_cons_default {A : Type} (x d : A) (l : list A) :
  last (x :: l) d = last l x.
Proof.
  revert x d. induction l as [|y l IH]; intros x d; [reflexivity|].
  change (last (x :: y :: l) d) with (last (y :: l) d).
  now rewrite !IH.
Qed.

(** A loop that returns has gone through one state per iteration and
    returns in the last of them. *)
Lemma states_of_foreach (body : Z -> M unit) (l : list Z) (st : state) :
  match snd (foreach l body st) with
  | Done _ st' =>
      List.length (states_of body l st) = List.length l /\
      last (states_of body l st) st = st'
  | Fail _ => True
  end.
Proof.
  revert st. induction l as [|i l IH]; intros st.
  - cbn. split; reflexivity.
  - cbn [foreach states_of]. unfold bind.
    destruct (body i st) as [t1 [[] st1|e]]; cbn [snd]; [|trivial].
    specialize (IH st1).
    destruct (foreach l body st1) as [t2 [[] st2|e]]; cbn [snd] in *;
      [|trivial].
    destruct IH as [Hlen Hlast]. split.
    + cbn [List.length]. now rewrite Hlen.
    + now rewrite last_cons_default.
Qed.

(** After the cycle loop nothing fails and nothing changes the state. *)
Lemma from_the_loop_outcome (p : parameters) (g : grid) (st : state) :
  snd (from_the_loop p g st) =
    match snd (simulation p g st) with
    | Done _ st' => Done 0 st'
    | Fail e => Fail e
    end.
Proof.
  unfold from_the_loop. unfold bind at 1.
  destruct (simulation p g st) as [t1 [[] st1|e]]; cbn [snd]; [|reflexivity].
  unfold bind.
  rewrite compare_results_run, release_resources_steps, print_timing_steps.
  reflexivity.
Qed.

(** C5 (amended): whenever [main] returns, the exit status is 0: [main] has
    one [return] statement, [return 0] (line 222), and it tests no status of
    a collaborator, no particle state, no maximum and no threshold.  By the
    time it returns every configured cycle has run to its end, and the
    final state is the one the last cycle left.  No run returns a nonzero
    status; two successive cycles that breach a verifier threshold change
    nothing to that. *)
Theorem main_returns_only_zero (p : parameters) (z : Z) :
  exit_status (run p) = Some z ->
  z = 0 /\
  List.length (states_after_cycles p) = List.length (cycles p) /\
  final_state (run p) =
    Some (last (states_after_cycles p) (initialized p (setGrid p))).
Proof.
  destruct (Z.ltb_spec (ns p) 0) as [Hn|Hn].
  { rewrite run_bad_array by exact Hn. discriminate. }
  rewrite run_from_the_loop by exact Hn.
  unfold exit_status, final_state. cbn [snd].
  rewrite from_the_loop_outcome.
  pose proof (states_of_foreach (pic_cycle p (setGrid p)) (cycles p)
                (initialized p (setGrid p))) as Hs.
  unfold simulation, for_range. fold (cycles p).
  destruct (snd (foreach (cycles p) (pic_cycle p (setGrid p))
                   (initialized p (setGrid p)))) as [[] st'|e];
    [|discriminate].
  destruct Hs as [Hlen Hlast]. intros E. inversion E.
  unfold states_after_cycles.
  split; [reflexivity|]. split; [exact Hlen|]. now rewrite Hlast.
Qed.

(** ** The number of cells of the arrays *)

Lemma keeps_bind {A B : Type} Inv (m : M A) (k : A -> M B) :
  keeps Inv m -> (forall a, keeps Inv (k a)) -> keeps Inv (bind m k).
Proof.
  intros [Hm] Hk. constructor. intros st HI. unfold bind.
  specialize (Hm st HI).
  destruct (m st) as [t1 [a st1|e]]; cbn [snd] in *; [|trivial].
  destruct (Hk a) as [Hka]. specialize (Hka st1 Hm).
  destruct (k a st1) as [t2 o]. exact Hka.
Qed.

Lemma keeps_call Inv c args f :
  (forall st, Inv st -> Inv (f st)) -> keeps Inv (call c args f).
Proof. intros H. constructor. intros st HI. cbn. now apply H. Qed.

Lemma keeps_cout Inv items : keeps Inv (cout items).
Proof. constructor. intros st HI. exact HI. Qed.

Lemma keeps_ret {A : Type} Inv (a : A) : keeps Inv (ret a).
Proof. constructor. intros st HI. exact HI. Qed.

Lemma keeps_raise {A : Type} Inv e : keeps Inv (raise (A := A) e).
Proof. constructor. intros st HI. cbn. trivial. Qed.

Lemma keeps_foreach Inv (body : Z -> M unit) l :
  (forall i, keeps Inv (body i)) -> keeps Inv (foreach l body).
Proof.
  intros Hb. induction l as [|i l IH]; [exact (keeps_ret Inv tt)|].
  cbn [foreach]. simple apply keeps_bind; [apply Hb | intros _; exact IH].
Qed.

Lemma cells_ok_part (p : parameters) r (x : list particles) (st : state) :
  List.length x = List.length (part (sel r st)) ->
  cells_ok p st -> cells_ok p (upd r (with_part x) st).
Proof.
  intros Hx H r'. specialize (H r').
  destruct r, r', st as [[] []]; cbn in *; rewrite ?Hx; exact H.
Qed.

Lemma cells_ok_ids (p : parameters) r (x : list (interpDensSpecies FPinterp))
    (st : state) :
  List.length x = List.length (ids (sel r st)) ->
  cells_ok p st -> cells_ok p (upd r (with_ids x) st).
Proof.
  intros Hx H r'. specialize (H r').
  destruct r, r', st as [[] []]; cbn in *; rewrite ?Hx; exact H.
Qed.

Lemma cells_ok_idn (p : parameters) r (d : interpDensNet FPinterp)
    (st : state) :
  cells_ok p st -> cells_ok p (upd r (with_idn d) st).
Proof.
  intros H r'. specialize (H r').
  destruct r, r', st as [[] []]; cbn in *; exact H.
Qed.

Lemma length_zeroed_cells (n : nat) (a : list (interpDensSpecies FPinterp)) :
  List.length (map (fun _ => zero_species) (firstn n a) ++ skipn n a)
  = List.length a.
Proof.
  rewrite length_app, length_map, <- length_app, firstn_skipn. reflexivity.
Qed.

Lemma cells_ok_zero (p : parameters) (g : grid) r (st : state) :
  cells_ok p st -> cells_ok p (upd r (zero_stores g (ns p)) st).
Proof.
  intros H r'. specialize (H r').
  destruct r, r', st as [[] []]; cbn in *;
    rewrite ?length_zeroed_cells; exact H.
Qed.

Lemma cells_ok_init (p : parameters) (g : grid) r (st : state) :
  cells_ok p st -> cells_ok p (upd r (init_stores p g) st).
Proof.
  intros H r'. specialize (H r').
  assert (Hl : forall s,
    List.length (ids (init_stores p g s)) = List.length (ids s) /\
    List.length (part (init_stores p g s)) = List.length (part s)).
  { intros s. unfold init_stores.
    pose proof (initGEM_cells p g (field s) (field_aux s) (part s) (ids s))
      as [Hx Hd].
    destruct (initGEM p g (field s) (field_aux s) (part s) (ids s))
      as [[[f a] x] d].
    cbn in *. split; assumption. }
  destruct r, r', st as [c u]; cbn in *;
    try exact H; destruct H as [H1 H2].
  - destruct (Hl c) as [-> ->]. now split.
  - destruct (Hl u) as [-> ->]. now split.
Qed.

Lemma entry_cells_ok (p : parameters) (g : grid) :
  cells_ok p (initialized p g).
Proof.
  unfold initialized. do 2 apply cells_ok_init.
  intros r. destruct r; cbn; rewrite !length_map, length_range;
    split; f_equal; lia.
Qed.

Ltac keep_cells :=
  repeat first
    [ simple apply keeps_cout
    | simple apply keeps_ret
    | simple apply keeps_raise
    | simple apply keeps_bind; [|intros _]
    | simple apply keeps_foreach; intros ?
    | simple apply keeps_call; intros ? ? ].

Lemma pic_cycle_keeps_cells (p : parameters) (g : grid) (c : Z) :
  keeps (cells_ok p) (pic_cycle p g c).
Proof.
  unfold pic_cycle, zero_densities, move_particles, interpolate,
    write_output, for_range.
  keep_cells;
    try (apply cells_ok_zero; assumption);
    try (apply cells_ok_part; [apply length_alter_cell | assumption]);
    try (apply cells_ok_ids; [apply length_alter_cell | assumption]);
    try (apply cells_ok_idn; assumption);
    try assumption.
  destruct (FieldOutputCycle p =? 0); [simple apply keeps_raise|].
  destruct (Z.rem c (FieldOutputCycle p) =? 0); keep_cells; assumption.
Qed.

Lemma pic_cycle_cells_ok (p : parameters) (g : grid) (c : Z) (st st' : state) :
  cells_ok p st -> final_state (pic_cycle p g c st) = Some st' ->
  cells_ok p st'.
Proof.
  intros H Hf. destruct (pic_cycle_keeps_cells p g c) as [Hk].
  specialize (Hk st H). unfold final_state in Hf.
  destruct (snd (pic_cycle p g c st)); [|discriminate].
  now inversion Hf; subst.
Qed.

(** ** The zeroing of the densities *)

Lemma pic_cycle_after_zeroing (p : parameters) (g : grid) (c : Z) (st : state) :
  pic_cycle p g c st =
    (banner c ++ zero_trace p
       ++ fst (after_zeroing p g c (zeroed p g st)),
     snd (after_zeroing p g c (zeroed p g st))).
Proof.
  unfold pic_cycle.
  change (move_particles p g;; interpolate p g;; write_output p c)
    with (after_zeroing p g c).
  generalize (after_zeroing p g c). intros R.
  unfold bind, cout, zero_densities, call, bind. fold (zeroed p g st).
  destruct (R (zeroed p g st)) as [t o]. reflexivity.
Qed.

Lemma map_const_repeat {A B : Type} (c : B) (l : list A) :
  map (fun _ => c) l = repeat c (List.length l).
Proof. induction l as [|x l IH]; cbn; [reflexivity | now rewrite IH]. Qed.

Lemma zeroed_cells (n : nat) (a : list (interpDensSpecies FPinterp)) :
  List.length a = n ->
  map (fun _ => zero_species) (firstn n a) ++ skipn n a
  = repeat zero_species n.
Proof.
  intros <-. rewrite firstn_all, skipn_all, app_nil_r.
  apply map_const_repeat.
Qed.

Lemma zeroed_densities (p : parameters) (g : grid) (st : state) :
  cells_ok p st ->
  forall r,
    idn (sel r (zeroed p g st)) = zero_net /\
    ids (sel r (zeroed p g st)) = repeat zero_species (Z.to_nat (ns p)).
Proof.
  intros H r. destruct (H CPU) as [Hc _], (H GPU) as [Hg _].
  destruct r, st as [[] []]; cbn in *; split; try reflexivity;
    now apply zeroed_cells.
Qed.

Lemma zeroed_same (p : parameters) (g : grid) (st st' : state) :
  cells_ok p st -> cells_ok p st' -> same_fields_and_particles st st' ->
  zeroed p g st = zeroed p g st'.
Proof.
  intros H H' Hs.
  destruct (H CPU) as [Hc _], (H GPU) as [Hg _].
  destruct (H' CPU) as [Hc' _], (H' GPU) as [Hg' _].
  destruct (Hs CPU) as (E1 & E2 & E3), (Hs GPU) as (E4 & E5 & E6).
  destruct st as [[] []], st' as [[] []]; cbn in *. subst.
  unfold zeroed, zero_stores. cbn.
  rewrite !zeroed_cells by assumption. reflexivity.
Qed.

(** C10: every cycle starts by zeroing the densities.  The two calls of
    [setZeroDensities], one per replica, each handed the aggregate store
    and the whole array of per-species stores, come right after the
    opening lines of the cycle and before every other call; the rest of the
    cycle runs from the state they leave, in which the aggregate store and
    each of the [ns] per-species stores of both replicas are zero in every
    moment and both views.  Hence what the cycle leaves in the densities,
    and so what the comparison reads after the last cycle, does not depend
    on what the densities held before the cycle: two states with the same
    fields and particles give the same outcome. *)
Theorem densities_zeroed_in_every_cycle (p : parameters) (g : grid)
    (cycle : Z) (st : state) :
  cells_ok p st ->
  pic_cycle p g cycle st =
    ([Cout []; Cout [Str stars]; Cout [Str "   cycle = "; Num cycle];
      Cout [Str stars];
      Call f_setZeroDensities
        [Ref (v_idn CPU); Ref (v_ids CPU); Ref v_grd; Int (ns p)];
      Call f_setZeroDensities
        [Ref (v_idn GPU); Ref (v_ids GPU); Ref v_grd; Int (ns p)]]
       ++ fst (after_zeroing p g cycle (zeroed p g st)),
     snd (after_zeroing p g cycle (zeroed p g st))) /\
  (forall r,
     idn (sel r (zeroed p g st)) = zero_net /\
     ids (sel r (zeroed p g st)) = repeat zero_species (Z.to_nat (ns p))) /\
  (forall st',
     cells_ok p st' -> same_fields_and_particles st st' ->
     pic_cycle p g cycle st' = pic_cycle p g cycle st).
Proof.
  intros H. split; [apply pic_cycle_after_zeroing|].
  split; [now apply zeroed_densities|].
  intros st' H' Hs. rewrite !pic_cycle_after_zeroing.
  now rewrite (zeroed_same g H H' Hs).
Qed.

(** ** The cells of the arrays, along a run *)

Lemma from_the_loop_keeps_cells (p : parameters) (g : grid) :
  keeps (cells_ok p) (from_the_loop p g).
Proof.
  unfold from_the_loop, simulation, for_range.
  simple apply keeps_bind.
  { simple apply keeps_foreach. intros c. apply pic_cycle_keeps_cells. }
  intros _. unfold compare_results, release_resources, print_timing,
    for_range.
  simple apply keeps_bind.
  { simple apply keeps_bind; [|intros _];
      constructor; intros st HI; exact HI. }
  intros _. keep_cells; assumption.
Qed.

(** Whatever state a run ends in, the arrays hold [ns] cells each. *)
Lemma run_cells_ok (p : parameters) (st : state) :
  final_state (run p) = Some st -> cells_ok p st.
Proof.
  destruct (Z.ltb_spec (ns p) 0) as [Hn|Hn].
  { rewrite run_bad_array by exact Hn. discriminate. }
  rewrite run_from_the_loop by exact Hn.
  destruct (from_the_loop_keeps_cells p (setGrid p)) as [Hk].
  specialize (Hk _ (entry_cells_ok p (setGrid p))).
  unfold final_state. cbn [snd].
  destruct (snd (from_the_loop p (setGrid p) (initialized p (setGrid p))));
    [|discriminate].
  intros E. now inversion E; subst.
Qed.

(** ** The phases of a cycle *)

Lemma phases_app (a b : list event) : phases (a ++ b) = phases a ++ phases b.
Proof. apply flat_map_app. Qed.

Lemma phases_flat_map (f : Z -> list event) l :
  phases (flat_map f l) = flat_map (fun i => phases (f i)) l.
Proof.
  induction l as [|i l IH]; [reflexivity|].
  cbn [flat_map]. now rewrite phases_app, IH.
Qed.

Lemma sorted_from_nil n : sorted_from n [].
Proof. split; constructor. Qed.

Lemma sorted_from_weaken n m l :
  (n <= m)%nat -> sorted_from m l -> sorted_from n l.
Proof.
  intros H [Hs Hb]. split; [exact Hs|].
  eapply Forall_impl; [|exact Hb]. intros; lia.
Qed.

Lemma sorted_from_same m l1 l2 :
  Forall (eq m) l1 -> sorted_from m l2 -> sorted_from m (l1 ++ l2).
Proof.
  intros H1 H2. induction H1 as [|x l1 <- _ [IHs IHb]]; [exact H2|].
  cbn [app]. split.
  - constructor; [exact IHs | exact IHb].
  - constructor; [lia | exact IHb].
Qed.

Lemma sorted_from_block n m l1 l2 :
  (n <= m)%nat -> Forall (eq m) l1 -> sorted_from m l2 ->
  sorted_from n (l1 ++ l2).
Proof.
  intros Hnm H1 H2. apply (sorted_from_weaken Hnm).
  now apply sorted_from_same.
Qed.

Lemma cycle_prefix_then_sorted (p : parameters) c (rest : list nat) :
  sorted_from 6 rest ->
  StronglySorted le (phases (cycle_prefix (FPinterp := FPinterp) p c) ++ rest).
Proof.
  intros Hrest.
  unfold cycle_prefix, move_trace, interpolate_trace.
  rewrite !phases_app, !phases_flat_map. cbn [banner phases flat_map phase app
    zero_trace sum_calls].
  rewrite <- !app_assoc. cbn [app].
  apply (sorted_from_block (n := 0) (m := 0) (l1 := [0; 0]%nat));
    [lia | repeat constructor |].
  apply (sorted_from_block (m := 1%nat)); [lia | |].
  { apply Forall_flat_map_all. intros i. repeat constructor. }
  apply (sorted_from_block (m := 2%nat)); [lia | |].
  { apply Forall_flat_map_all. intros i. repeat constructor. }
  apply (sorted_from_block (m := 3%nat)); [lia | |].
  { apply Forall_flat_map_all. intros i. repeat constructor. }
  apply (sorted_from_block (m := 4%nat) (l1 := [4; 4]%nat));
    [lia | repeat constructor |].
  apply (sorted_from_block (m := 5%nat) (l1 := [5; 5]%nat));
    [lia | repeat constructor |].
  apply (sorted_from_weaken (m := 6%nat)); [lia | exact Hrest].
Qed.

Lemma cycle_prefix_sorted (p : parameters) c :
  StronglySorted le (phases (cycle_prefix (FPinterp := FPinterp) p c)).
Proof.
  rewrite <- (app_nil_r (phases _)).
  apply cycle_prefix_then_sorted, sorted_from_nil.
Qed.

Lemma cycle_trace_sorted (p : parameters) c :
  StronglySorted le (phases (cycle_trace (FPinterp := FPinterp) p c)).
Proof.
  unfold cycle_trace. rewrite phases_app.
  apply cycle_prefix_then_sorted.
  unfold output_trace.
  destruct (Z.rem c (FieldOutputCycle p) =? 0); cbn.
  - apply (sorted_from_block (m := 6%nat) (l1 := [6; 6; 6; 6]%nat) (l2 := []));
      [lia | repeat constructor | apply sorted_from_nil].
  - apply sorted_from_nil.
Qed.

Lemma pic_cycle_trace (p : parameters) (g : grid) c st :
  trace_of (pic_cycle p g c st) =
    if FieldOutputCycle p =? 0 then cycle_prefix p c else cycle_trace p c.
Proof.
  destruct (Z.eqb_spec (FieldOutputCycle p) 0) as [HF|HF].
  - now rewrite (pic_cycle_stops p g c HF).
  - destruct (pic_cycle_total p g c HF) as [f ->]. reflexivity.
Qed.

Lemma StronglySorted_app_r {A : Type} (R : A -> A -> Prop) l1 l2 :
  StronglySorted R (l1 ++ l2) -> StronglySorted R l2.
Proof.
  induction l1 as [|x l1 IH]; [auto|].
  cbn [app]. intros H. apply StronglySorted_inv in H. tauto.
Qed.

Lemma sorted_phases_precede (tr l1 l2 l3 : list event) e1 e2 a b :
  StronglySorted le (phases tr) ->
  tr = l1 ++ e1 :: l2 ++ e2 :: l3 ->
  phase e1 = Some a -> phase e2 = Some b -> (a <= b)%nat.
Proof.
  intros Hs -> Ha Hb.
  rewrite phases_app in Hs. apply StronglySorted_app_r in Hs.
  change (e1 :: l2 ++ e2 :: l3) with ([e1] ++ l2 ++ [e2] ++ l3) in Hs.
  rewrite !phases_app in Hs. cbn [phases flat_map] in Hs.
  rewrite Ha, Hb in Hs. cbn [app] in Hs.
  apply StronglySorted_inv in Hs. destruct Hs as [_ Hall].
  apply Forall_app in Hall. destruct Hall as [_ Hall].
  now inversion Hall.
Qed.

(** C7: within a cycle the phases follow one another: zeroing, movers,
    particle-to-grid interpolation, per-species density boundary
    conditions, sum over species, scalar-density boundary condition,
    snapshots.  Whenever a call [e1] comes before a call [e2] in the trace
    of a cycle, the phase of [e1] is not later than that of [e2]; so no
    interpolation starts before the last mover call, no sum before the
    last per-species boundary correction, no snapshot before the
    scalar-density boundary correction. *)
Theorem cycle_phases_in_sequence (p : parameters) (g : grid) (cycle : Z)
    (st : state) (l1 l2 l3 : list event) (e1 e2 : event) (a b : nat) :
  trace_of (pic_cycle p g cycle st) = l1 ++ e1 :: l2 ++ e2 :: l3 ->
  phase e1 = Some a -> phase e2 = Some b -> (a <= b)%nat.
Proof.
  intros Htr.
  apply (sorted_phases_precede l1 l2 l3 e1 e2
           (tr := trace_of (pic_cycle p g cycle st))); [|exact Htr].
  rewrite pic_cycle_trace.
  destruct (FieldOutputCycle p =? 0).
  - apply cycle_prefix_sorted.
  - apply cycle_trace_sorted.
Qed.

(** ** The snapshots *)

Lemma cycle_prefix_no_snapshot (p : parameters) c :
  Forall (fun e : event => is_snapshot e = false) (cycle_prefix p c).
Proof. unfold_traces. none_of. Qed.

Lemma rem_zero_iff_divide (c d : Z) : d <> 0 -> (Z.rem c d = 0 <-> (d | c)).
Proof. intros Hd. now apply Z.rem_divide. Qed.

(** C8: in cycle [c] the snapshots are written if and only if [c] is a
    multiple of the output cadence; when written they are exactly four
    calls, the vector fields and then the scalar densities, each once for
    the variant tagged "cpu" and once for the variant tagged "gpu". *)
Theorem snapshots_on_cadence (p : parameters) (g : grid) (c : Z) (st : state) :
  FieldOutputCycle p <> 0 ->
  ((FieldOutputCycle p | c) ->
     filter is_snapshot (trace_of (pic_cycle p g c st)) =
       [Call f_VTK_Write_Vectors [Int c; Ref v_grd; Ref (v_field CPU); Tag "cpu"];
        Call f_VTK_Write_Vectors [Int c; Ref v_grd; Ref (v_field GPU); Tag "gpu"];
        Call f_VTK_Write_Scalars
          [Int c; Ref v_grd; Ref (v_ids CPU); Ref (v_idn CPU); Tag "cpu"];
        Call f_VTK_Write_Scalars
          [Int c; Ref v_grd; Ref (v_ids GPU); Ref (v_idn GPU); Tag "gpu"]]) /\
  (~ (FieldOutputCycle p | c) ->
     filter is_snapshot (trace_of (pic_cycle p g c st)) = []).
Proof.
  intros HF. rewrite pic_cycle_trace.
  destruct (Z.eqb_spec (FieldOutputCycle p) 0) as [E|_]; [contradiction|].
  unfold cycle_trace. rewrite filter_app.
  rewrite (filter_none _ (cycle_prefix_no_snapshot p c)). cbn [app].
  unfold output_trace.
  destruct (Z.eqb_spec (Z.rem c (FieldOutputCycle p)) 0) as [Hr|Hr].
  - split; [reflexivity|]. intros Hnd. exfalso. apply Hnd.
    now apply (rem_zero_iff_divide c HF).
  - split; [|reflexivity]. intros Hd. exfalso. apply Hr.
    now apply (rem_zero_iff_divide c HF).
Qed.

(** * Further properties of the driver *)

Lemma flat_map_nil_all {A B : Type} (f : A -> list B) (l : list A) :
  Forall (fun x => f x = []) l -> flat_map f l = [].
Proof.
  induction 1 as [|x l Hx _ IH]; [reflexivity|].
  cbn [flat_map]. now rewrite Hx, IH.
Qed.


(** ** The flat index as a layout *)

Lemma plane_injective (n i j i' j' : Z) :
  0 <= i < n -> 0 <= i' < n -> j * n + i = j' * n + i' -> i = i' /\ j = j'.
Proof.
  intros Hi Hi' E. assert (j = j') by nia. subst. lia.
Qed.

Lemma plane_offset_range (g : grid) (i j k : Z) :
  in_mesh g i j k -> 0 <= j * nxn g + i <= nxn g * nyn g - 1.
Proof. unfold in_mesh. intros (Hi & Hj & Hk). nia. Qed.

(** X1: on a mesh with at least one node, no two nodes share a flat index
    exactly when the mesh has a single k-plane or nxn*nyn <= nxn + nyn: the
    k-planes, each nxn*nyn indices wide, are laid nxn + nyn apart. *)
Theorem flat_index_injective_iff (g : grid) :
  0 < nxn g -> 0 < nyn g -> 0 < nzn g ->
  (injective_on_mesh g <->
   nzn g = 1 \/ nxn g * nyn g <= nxn g + nyn g).
Proof.
  intros Hx Hy Hz. split.
  - intros Hinj.
    destruct (Z.eq_dec (nzn g) 1) as [E|E]; [now left|right].
    destruct (Z.le_gt_cases (nxn g * nyn g) (nxn g + nyn g)) as [H|H];
      [exact H|exfalso].
    set (s := nxn g + nyn g) in *.
    assert (Hm : 0 <= s mod nxn g < nxn g) by (apply Z.mod_pos_bound; lia).
    assert (Hd : 0 <= s / nxn g < nyn g).
    { split; [apply Z.div_pos; lia|].
      apply Z.div_lt_upper_bound; lia. }
    assert (E' : (s mod nxn g, s / nxn g, 0) = (0, 0, 1)).
    { apply Hinj.
      - unfold in_mesh. lia.
      - unfold in_mesh. lia.
      - unfold flat_index. fold s.
        pose proof (Z.div_mod s (nxn g)) as Hdm. lia. }
    discriminate E'.
  - intros Hc i j k i' j' k' Hm Hm' E.
    pose proof (plane_offset_range Hm) as Hr.
    pose proof (plane_offset_range Hm') as Hr'.
    destruct Hm as (Hi & Hj & Hk), Hm' as (Hi' & Hj' & Hk').
    unfold flat_index in E.
    assert (Ek : k = k').
    { destruct Hc as [Hc|Hc]; [lia|].
      destruct (Z.lt_trichotomy k k') as [L|[L|L]]; [exfalso|exact L|exfalso].
      - assert ((k' - k) * (nxn g + nyn g) >= nxn g + nyn g) by nia. nia.
      - assert ((k - k') * (nxn g + nyn g) >= nxn g + nyn g) by nia. nia. }
    subst k'.
    destruct (@plane_injective (nxn g) i j i' j') as [-> ->];
      [lia | lia | lia | reflexivity].
Qed.

(** X2: the flat index of a node is never negative; on a mesh with at
    least one node it stays below the number of nodes nxn*nyn*nzn for every
    node exactly when the mesh has a single k-plane or
    nxn + nyn <= nxn*nyn. *)
Theorem flat_index_below_node_count_iff (g : grid) :
  0 < nxn g -> 0 < nyn g -> 0 < nzn g ->
  (forall i j k, in_mesh g i j k ->
     0 <= flat_index g i j k
       <= (nzn g - 1) * (nxn g + nyn g) + nxn g * nyn g - 1) /\
  (below_node_count g <->
   nzn g = 1 \/ nxn g + nyn g <= nxn g * nyn g).
Proof.
  intros Hx Hy Hz. split.
  { intros i j k Hm. pose proof (plane_offset_range Hm) as Hr.
    destruct Hm as (Hi & Hj & Hk). unfold flat_index. nia. }
  split.
  - intros Hb.
    destruct (Z.eq_dec (nzn g) 1) as [E|E]; [now left|right].
    assert (Hm : in_mesh g (nxn g - 1) (nyn g - 1) (nzn g - 1))
      by (unfold in_mesh; lia).
    specialize (Hb _ _ _ Hm). unfold flat_index in Hb. nia.
  - intros Hc i j k Hm. pose proof (plane_offset_range Hm) as Hr.
    destruct Hm as (Hi & Hj & Hk). unfold flat_index.
    destruct Hc as [Hc|Hc]; nia.
Qed.

(** ** What the comparison prints *)

Lemma no_element_nil {A : Type} (l : list A) :
  (forall x, ~ In x l) -> l = [].
Proof.
  destruct l as [|x l]; [reflexivity|].
  intros H. exfalso. apply (H x). now left.
Qed.

Lemma fold_compare_zero (st : state) (l : list comparison) :
  fmax fzero fzero = fzero ->
  to_float fzero = fzero ->
  Forall (fun c => deviation st c = fzero) l ->
  fold_left (compare_step st) l fzero = fzero.
Proof.
  intros Hz Hf Hall. induction Hall as [|c l Hc _ IH]; [reflexivity|].
  cbn [fold_left]. now rewrite compare_step_deviation, Hc, Hz, Hf.
Qed.

(** X3: the accumulators of the comparison are of type [float] and every
    assignment to them converts the result of [fmax].  When [fmax] is the
    binary maximum of an order (reflexive, transitive, [fmax a b] above
    both arguments and equal to one of them) and the conversion to [float]
    is monotone for that order, leaves a converted value as it is and keeps
    0, each of the two values the comparison prints is the greatest of 0
    and the magnitudes it compared as converted to [float]: it is above 0
    and above the conversion of each magnitude, and it is 0 or the
    conversion of one of them.  (It need not be above the magnitude
    itself: the conversion may round it down.) *)
Theorem printed_maxima_are_maxima (leq : FPinterp -> FPinterp -> Prop)
    (p : parameters) (g : grid) (st : state) :
  (forall a, leq a a) ->
  (forall a b c, leq a b -> leq b c -> leq a c) ->
  (forall a b, leq a (fmax a b)) ->
  (forall a b, leq b (fmax a b)) ->
  (forall a b, fmax a b = a \/ fmax a b = b) ->
  (forall a b, leq a b -> leq (to_float a) (to_float b)) ->
  (forall a, to_float (to_float a) = to_float a) ->
  to_float fzero = fzero ->
  (leq fzero (maxErrorIdsRhon p g st) /\
   Forall (fun c => leq (to_float (deviation st c)) (maxErrorIdsRhon p g st))
          (ids_comparisons p g) /\
   (maxErrorIdsRhon p g st = fzero \/
    exists c, In c (ids_comparisons p g) /\
              maxErrorIdsRhon p g st = to_float (deviation st c))) /\
  (leq fzero (maxErrorIdnRhon g st) /\
   Forall (fun c => leq (to_float (deviation st c)) (maxErrorIdnRhon g st))
          (idn_comparisons g) /\
   (maxErrorIdnRhon g st = fzero \/
    exists c, In c (idn_comparisons g) /\
              maxErrorIdnRhon g st = to_float (deviation st c))).
Proof.
  intros Hrefl Htrans Hl Hr Hmax Hmono Hidem H0.
  rewrite maxErrorIdsRhon_fold, maxErrorIdnRhon_fold. split.
  - destruct (fold_compare_bounds leq st (ids_comparisons p g)
                Hrefl Htrans Hl Hr Hmono Hidem H0) as [Hz Hall].
    split; [exact Hz|]. split; [exact Hall|].
    now apply fold_compare_attained.
  - destruct (fold_compare_bounds leq st (idn_comparisons g)
                Hrefl Htrans Hl Hr Hmono Hidem H0) as [Hz Hall].
    split; [exact Hz|]. split; [exact Hall|].
    now apply fold_compare_attained.
Qed.

(** X4: let [finite] be a set of values on which a value minus itself has
    magnitude 0 (in IEEE arithmetic: the finite values, not the infinities
    and not NaN), and let the maximum of 0 and 0 be 0 and the conversion of
    0 to [float] be 0.  Then the comparison prints 0 for the per-species
    densities as soon as, for every species and every node (i, j, k) of the
    mesh, idsCPU[is].rhon[i][j][k] is such a value and equals
    idsGPU[is].rhon_flat[k*(nxn+nyn) + j*nxn + i]; and 0 for the net
    density as soon as idnCPU.rhon[i][j][k] is such a value and equals
    idnCPU.rhon_flat[k*(nxn+nyn) + j*nxn + i] at every node. *)
Theorem agreeing_views_report_zero (finite : FPinterp -> Prop)
    (p : parameters) (g : grid) (st : state) :
  (forall x, finite x -> fabs (fsub x x) = fzero) ->
  fmax fzero fzero = fzero ->
  to_float fzero = fzero ->
  ((forall isp i j k, 0 <= isp < ns p -> in_mesh g i j k ->
      finite (ids_rhon (cell (fresh_ids CPU isp) (idsCPU st) isp) i j k) /\
      ids_rhon (cell (fresh_ids CPU isp) (idsCPU st) isp) i j k =
      ids_rhon_flat (cell (fresh_ids GPU isp) (idsGPU st) isp)
        (k * (nxn g + nyn g) + j * nxn g + i)) ->
   maxErrorIdsRhon p g st = fzero) /\
  ((forall i j k, in_mesh g i j k ->
      finite (idn_rhon (idnCPU st) i j k) /\
      idn_rhon (idnCPU st) i j k =
      idn_rhon_flat (idnCPU st) (k * (nxn g + nyn g) + j * nxn g + i)) ->
   maxErrorIdnRhon g st = fzero).
Proof.
  intros Hself Hz Hf. split; intros Hag.
  - rewrite maxErrorIdsRhon_fold. apply fold_compare_zero; [exact Hz|exact Hf|].
    apply Forall_forall. intros c Hc. apply in_ids_comparisons in Hc.
    destruct Hc as (isp & Hs & Hl & Hr & Hm & Hfl).
    unfold deviation. rewrite Hl, Hr, Hfl. cbn [scalar_of sel].
    destruct (Hag isp _ _ _ Hs Hm) as [Hfin Heq].
    unfold ids_rhon, ids_rhon_flat, idsCPU, idsGPU, flat_index in *.
    rewrite <- Heq. now apply Hself.
  - rewrite maxErrorIdnRhon_fold. apply fold_compare_zero; [exact Hz|exact Hf|].
    apply Forall_forall. intros c Hc. apply in_mesh_comparisons in Hc.
    destruct Hc as (Hl & Hr & Hm & Hfl).
    unfold deviation. rewrite Hl, Hr, Hfl. cbn [scalar_of sel].
    destruct (Hag _ _ _ Hm) as [Hfin Heq].
    unfold idn_rhon, idn_rhon_flat, idnCPU, flat_index in *.
    rewrite <- Heq. now apply Hself.
Qed.

(** X5: with no species, or on a mesh that has no node along some axis,
    the loop nests of the comparison never run their body: the per-species
    maximum printed is the initial 0; on a mesh without nodes so is the
    net one. *)
Theorem empty_ranges_report_zero (p : parameters) (g : grid) (st : state) :
  (ns p <= 0 \/ nxn g <= 0 \/ nyn g <= 0 \/ nzn g <= 0 ->
   ids_comparisons p g = [] /\ maxErrorIdsRhon p g st = fzero) /\
  (nxn g <= 0 \/ nyn g <= 0 \/ nzn g <= 0 ->
   idn_comparisons g = [] /\ maxErrorIdnRhon g st = fzero).
Proof.
  split; intros H.
  - assert (E : ids_comparisons p g = []).
    { apply no_element_nil. intros c Hc. apply in_ids_comparisons in Hc.
      destruct Hc as (isp & Hs & _ & _ & Hm & _). unfold in_mesh in Hm. lia. }
    split; [exact E|]. now rewrite maxErrorIdsRhon_fold, E.
  - assert (E : idn_comparisons g = []).
    { apply no_element_nil. intros c Hc. apply in_mesh_comparisons in Hc.
      destruct Hc as (_ & _ & Hm & _). unfold in_mesh in Hm. lia. }
    split; [exact E|]. now rewrite maxErrorIdnRhon_fold, E.
Qed.

(** ** The cycles a run announces *)

Lemma announced_app (a b : list event) :
  announced (a ++ b) = announced a ++ announced b.
Proof. apply flat_map_app. Qed.

Lemma announced_startup (p : parameters) :
  announced (startup_trace (FPinterp := FPinterp) p) = [].
Proof. apply flat_map_nil_all. unfold_traces. none_of. Qed.

Lemma announced_shutdown (p : parameters) :
  announced (shutdown_trace (FPinterp := FPinterp) p) = [].
Proof. apply flat_map_nil_all. unfold_traces. none_of. Qed.

Lemma announced_cycle_prefix (p : parameters) (c : Z) :
  announced (cycle_prefix (FPinterp := FPinterp) p c) = [c].
Proof.
  unfold cycle_prefix. rewrite announced_app.
  replace (announced (zero_trace p ++ move_trace p ++ interpolate_trace p))
    with (@nil Z); [reflexivity|].
  symmetry. apply flat_map_nil_all. unfold_traces. none_of.
Qed.

Lemma announced_cycle_trace (p : parameters) (c : Z) :
  announced (cycle_trace (FPinterp := FPinterp) p c) = [c].
Proof.
  unfold cycle_trace. rewrite announced_app, announced_cycle_prefix.
  replace (announced (output_trace p c)) with (@nil Z); [reflexivity|].
  symmetry. apply flat_map_nil_all. unfold_traces.
  destruct (Z.rem c (FieldOutputCycle p) =? 0); none_of.
Qed.

Lemma announced_cycles (p : parameters) (l : list Z) :
  announced (flat_map (cycle_trace (FPinterp := FPinterp) p) l) = l.
Proof.
  induction l as [|c l IH]; [reflexivity|].
  cbn [flat_map]. now rewrite announced_app, announced_cycle_trace, IH.
Qed.

(** ** The two replicas do not interfere *)

#[local] Abbreviation independent :=
  (independent (FPinterp := FPinterp) (EMfield := EMfield)
     (EMfield_aux := EMfield_aux) (particles := particles)).

Lemma independent_then {A B : Type} r (m : M A) (k : M B) :
  independent r m -> independent r k -> independent r (m ;; k).
Proof.
  intros [Hm] [Hk]. constructor. intros st st' H. unfold bind.
  specialize (Hm st st' H).
  destruct (m st) as [t1 [a st1|e]], (m st') as [t1' [a' st1'|e']];
    cbn [snd agree_on] in *; try contradiction.
  - specialize (Hk st1 st1' Hm).
    destruct (k st1) as [t2 o], (k st1') as [t2' o']. exact Hk.
  - exact Hm.
Qed.

Lemma independent_call r c args f :
  (forall st st', sel r st = sel r st' -> sel r (f st) = sel r (f st')) ->
  independent r (call c args f).
Proof. intros H. constructor. intros st st' E. cbn. now apply H. Qed.

Lemma independent_cout r items : independent r (cout items).
Proof. constructor. intros st st' E. exact E. Qed.

Lemma independent_ret r : independent r (ret tt).
Proof. constructor. intros st st' E. exact E. Qed.

Lemma independent_raise r e : independent r (raise (A := unit) e).
Proof. constructor. intros st st' E. reflexivity. Qed.

Lemma independent_foreach r (body : Z -> M unit) l :
  (forall i, independent r (body i)) -> independent r (foreach l body).
Proof.
  intros Hb. induction l as [|i l IH]; [exact (independent_ret r)|].
  cbn [foreach]. simple apply independent_then; [apply Hb | exact IH].
Qed.

Ltac split_replicas :=
  repeat first
    [ simple apply independent_cout
    | simple apply independent_ret
    | simple apply independent_raise
    | simple apply independent_then
    | simple apply independent_foreach; intros ?
    | simple apply independent_call;
      let E := fresh in
      intros [? ?] [? ?] E;
      match goal with r : replica |- _ => destruct r end;
      cbn in E |- *; subst; reflexivity ].

Lemma pic_cycle_independent (p : parameters) (g : grid) (c : Z) r :
  independent r (pic_cycle p g c).
Proof.
  unfold pic_cycle, zero_densities, move_particles, interpolate,
    write_output, for_range.
  split_replicas.
  destruct (FieldOutputCycle p =? 0); [simple apply independent_raise|].
  destruct (Z.rem c (FieldOutputCycle p) =? 0); split_replicas.
Qed.

Lemma simulation_independent (p : parameters) (g : grid) r :
  independent r (simulation p g).
Proof.
  unfold simulation, for_range. simple apply independent_foreach.
  intros c. apply pic_cycle_independent.
Qed.

Lemma simulation_same_trace (p : parameters) (g : grid) (st st' : state) :
  trace_of (simulation p g st) = trace_of (simulation p g st').
Proof.
  destruct (Z.eq_dec (FieldOutputCycle p) 0) as [HF|HF].
  - destruct (Z.ltb_spec 0 (ncycles p)) as [Hc|Hc].
    + now rewrite !(simulation_stops p g HF Hc).
    + now rewrite !(simulation_skipped p g Hc).
  - destruct (simulation_total p g HF) as [f Hf]. now rewrite !Hf.
Qed.

(** X6: over a cycle, and over the whole cycle loop, each replica evolves
    on its own: started in two states that hold the same stores for one
    replica, the loop emits the same trace and either fails alike or ends
    in two states that again hold the same stores for that replica,
    whatever the other replica held. *)
Theorem replicas_evolve_independently (p : parameters) (g : grid)
    (cycle : Z) (r : replica) (st st' : state) :
  sel r st = sel r st' ->
  agree_on r (snd (pic_cycle p g cycle st)) (snd (pic_cycle p g cycle st')) /\
  agree_on r (snd (simulation p g st)) (snd (simulation p g st')) /\
  trace_of (simulation p g st) = trace_of (simulation p g st').
Proof.
  intros H. split.
  { destruct (pic_cycle_independent p g cycle r) as [Hi]. now apply Hi. }
  split.
  { destruct (simulation_independent p g r) as [Hi]. now apply Hi. }
  apply simulation_same_trace.
Qed.

(** ** Runs that run no cycle, and runs that stop short *)

(** X7: when [ncycles <= 0] (and [ns >= 0]) no cycle runs, yet the
    comparison and the release do: the run goes from the start-up straight
    to the two lines of the comparison, which read the stores as [initGEM]
    left them, then releases the stores and returns 0. *)
Theorem run_without_cycles (p : parameters) :
  0 <= ns p -> ncycles p <= 0 ->
  run p =
    (startup_trace p
       ++ [Cout [Str "Max error idsrhon: ";
                 Flt (maxErrorIdsRhon p (setGrid p)
                        (initialized p (setGrid p)))];
           Cout [Str "Max error idnrhon: ";
                 Flt (maxErrorIdnRhon (setGrid p)
                        (initialized p (setGrid p)))]]
       ++ shutdown_trace p,
     Done 0 (initialized p (setGrid p))).
Proof.
  intros Hn Hc. rewrite run_from_the_loop by exact Hn.
  unfold from_the_loop, bind.
  rewrite (simulation_skipped p (setGrid p) Hc), compare_results_run,
    release_resources_steps, print_timing_steps.
  cbn [ret fst snd app]. unfold id, compare_trace, shutdown_trace.
  now rewrite !app_nil_r.
Qed.

(** X8: with a negative number of species the run stops at the first
    [new]: the three input routines, the timer, [setGrid] and the four
    field allocations have been called, nothing else; no store is
    initialised, compared or released, and [main] does not return. *)
Theorem run_with_negative_ns (p : parameters) :
  ns p < 0 ->
  run p =
    ([Call f_readInputFile [Ref v_param; Ref v_argc; Ref v_argv];
      Call f_printParameters [Ref v_param];
      Call f_saveParameters [Ref v_param];
      Call f_cpuSecond [];
      Call f_setGrid [Ref v_param; Ref v_grd];
      Call f_field_allocate [Ref v_grd; Ref (v_field CPU)];
      Call f_field_allocate [Ref v_grd; Ref (v_field GPU)];
      Call f_field_aux_allocate [Ref v_grd; Ref (v_field_aux CPU)];
      Call f_field_aux_allocate [Ref v_grd; Ref (v_field_aux GPU)]],
     Fail bad_array_new_length).
Proof. intros Hn. now rewrite run_bad_array. Qed.


(** ** Whole runs: cycles, calls, routing, indices *)

(** X10: a run that reaches the end of [main] announces exactly the cycles
    first_cycle_n, first_cycle_n + 1, ..., first_cycle_n + ncycles - 1, each
    once and in increasing order; there are [ncycles] of them, none when
    [ncycles <= 0]. *)
Theorem announced_cycles_of_run (p : parameters) :
  0 <= ns p -> FieldOutputCycle p <> 0 \/ ncycles p <= 0 ->
  announced (trace_of (run p)) =
    range (first_cycle_n p) (first_cycle_n p + ncycles p) /\
  List.length (announced (trace_of (run p))) = Z.to_nat (ncycles p) /\
  forall c, In c (announced (trace_of (run p))) <->
            first_cycle_n p <= c < first_cycle_n p + ncycles p.
Proof.
  intros Hn Hc. destruct (run_completes p Hn Hc) as [st ->].
  unfold trace_of. cbn [fst].
  assert (E : announced
                (startup_trace p ++ simulation_trace p
                 ++ compare_trace p (setGrid p) st ++ shutdown_trace p)
              = range (first_cycle_n p) (first_cycle_n p + ncycles p)).
  { rewrite !announced_app, announced_startup, announced_shutdown.
    unfold simulation_trace. rewrite announced_cycles.
    cbn [compare_trace announced flat_map app]. unfold cycles.
    now rewrite app_nil_r. }
  rewrite E. split; [reflexivity|]. split.
  - rewrite length_range. f_equal. lia.
  - intros c. apply in_range.
Qed.

Lemma calls_of_app f (a b : list event) :
  calls_of f (a ++ b) = (calls_of f a + calls_of f b)%nat.
Proof. unfold calls_of. now rewrite filter_app, length_app. Qed.

Lemma calls_of_flat_map f (h : Z -> list event) (k : nat) (l : list Z) :
  (forall x, calls_of f (h x) = k) ->
  calls_of f (flat_map h l) = (k * List.length l)%nat.
Proof.
  intros H. induction l as [|x l IH]; cbn [flat_map List.length].
  - now rewrite Nat.mul_0_r.
  - rewrite calls_of_app, H, IH, Nat.mul_succ_r. lia.
Qed.

Lemma calls_of_none f (tr : list event) :
  Forall (fun e : event => is_call_of f e = false) tr -> calls_of f tr = 0%nat.
Proof. intros H. unfold calls_of. now rewrite filter_none. Qed.

(** The calls of [f] in one cycle: [a] per species and [b] more. *)
Ltac count_cycle f :=
  unfold cycle_trace, cycle_prefix, output_trace, move_trace,
    interpolate_trace;
  rewrite !calls_of_app;
  rewrite (calls_of_flat_map f mover_calls
             (k := calls_of f (mover_calls (FPinterp := FPinterp) 0)))
    by (intros; reflexivity);
  rewrite (calls_of_flat_map f interp_calls
             (k := calls_of f (interp_calls (FPinterp := FPinterp) 0)))
    by (intros; reflexivity);
  rewrite (calls_of_flat_map f bc_calls
             (k := calls_of f (bc_calls (FPinterp := FPinterp) 0)))
    by (intros; reflexivity);
  rewrite length_range;
  match goal with
  | |- context [if ?b then _ else _] => destruct b
  end;
  cbn; lia.

Lemma calls_in_cycle (p : parameters) (c : Z) :
  (calls_of f_mover_PC (cycle_trace (FPinterp := FPinterp) p c)
     = Z.to_nat (ns p) /\
   calls_of f_mover_PC_GPU_basic (cycle_trace (FPinterp := FPinterp) p c)
     = Z.to_nat (ns p) /\
   calls_of f_interpP2G (cycle_trace (FPinterp := FPinterp) p c)
     = Z.to_nat (ns p) /\
   calls_of f_interpP2G_GPU_basic (cycle_trace (FPinterp := FPinterp) p c)
     = Z.to_nat (ns p) /\
   calls_of f_applyBCids (cycle_trace (FPinterp := FPinterp) p c)
     = 2 * Z.to_nat (ns p) /\
   calls_of f_setZeroDensities (cycle_trace (FPinterp := FPinterp) p c) = 2 /\
   calls_of f_sumOverSpecies (cycle_trace (FPinterp := FPinterp) p c) = 2 /\
   calls_of f_applyBCscalarDensN (cycle_trace (FPinterp := FPinterp) p c)
     = 2)%nat.
Proof.
  repeat split;
    match goal with |- calls_of ?f _ = _ => count_cycle f end.
Qed.

Lemma calls_in_run (f : callee) (k : nat) (p : parameters) (st : state) :
  Forall (fun e : event => is_call_of f e = false) (startup_trace p) ->
  Forall (fun e : event => is_call_of f e = false) (shutdown_trace p) ->
  (forall c, calls_of f (cycle_trace (FPinterp := FPinterp) p c) = k) ->
  calls_of f (startup_trace p ++ simulation_trace p
              ++ compare_trace p (setGrid p) st ++ shutdown_trace p)
  = (k * Z.to_nat (ncycles p))%nat.
Proof.
  intros H1 H2 Hc. rewrite !calls_of_app.
  rewrite (@calls_of_none f _ H1), (@calls_of_none f _ H2).
  unfold simulation_trace.
  rewrite (@calls_of_flat_map f (cycle_trace p) k (cycles p) Hc).
  unfold cycles. rewrite length_range. cbn.
  replace (first_cycle_n p + ncycles p - first_cycle_n p) with (ncycles p)
    by lia.
  lia.
Qed.

(** X11: in a run that reaches the end of [main], each of the two movers
    and each of the two interpolators is called once per species and per
    cycle, [applyBCids] twice per species and per cycle (once per replica),
    and [setZeroDensities], [sumOverSpecies] and [applyBCscalarDensN] twice
    per cycle (once per replica); none of them is called outside the
    cycles. *)
Theorem calls_per_species_and_cycle (p : parameters) :
  0 <= ns p -> FieldOutputCycle p <> 0 \/ ncycles p <= 0 ->
  (calls_of f_mover_PC (trace_of (run p))
     = Z.to_nat (ns p) * Z.to_nat (ncycles p) /\
   calls_of f_mover_PC_GPU_basic (trace_of (run p))
     = Z.to_nat (ns p) * Z.to_nat (ncycles p) /\
   calls_of f_interpP2G (trace_of (run p))
     = Z.to_nat (ns p) * Z.to_nat (ncycles p) /\
   calls_of f_interpP2G_GPU_basic (trace_of (run p))
     = Z.to_nat (ns p) * Z.to_nat (ncycles p) /\
   calls_of f_applyBCids (trace_of (run p))
     = 2 * Z.to_nat (ns p) * Z.to_nat (ncycles p) /\
   calls_of f_setZeroDensities (trace_of (run p)) = 2 * Z.to_nat (ncycles p) /\
   calls_of f_sumOverSpecies (trace_of (run p)) = 2 * Z.to_nat (ncycles p) /\
   calls_of f_applyBCscalarDensN (trace_of (run p))
     = 2 * Z.to_nat (ncycles p))%nat.
Proof.
  intros Hn Hc. destruct (run_completes p Hn Hc) as [st ->].
  unfold trace_of. cbn [fst].
  repeat split;
    (erewrite calls_in_run;
     [ reflexivity
     | unfold_traces; none_of
     | unfold_traces; none_of
     | intros c; apply (calls_in_cycle p c) ]).
Qed.

Lemma Forall_cycle_trace (P : event -> Prop) (p : parameters) (c : Z) :
  Forall P (cycle_prefix p c) -> P (Call f_cpuSecond []) ->
  Forall P (snapshots c) -> Forall P (cycle_trace p c).
Proof.
  intros H1 H2 H3. unfold cycle_trace, output_trace.
  apply Forall_app. split; [exact H1|].
  apply Forall_app. split; [|now constructor].
  destruct (Z.rem c (FieldOutputCycle p) =? 0); [exact H3 | constructor].
Qed.

(** The trace of a run has one of three shapes. *)
Lemma run_trace_shape (p : parameters) :
  exists st,
    (ns p < 0 /\ trace_of (run p) = read_input_trace ++ field_allocations) \/
    (0 <= ns p /\
     trace_of (run p) = startup_trace p ++ cycle_prefix p (first_cycle_n p)) \/
    (0 <= ns p /\
     trace_of (run p) =
       startup_trace p ++ simulation_trace p
       ++ compare_trace p (setGrid p) st ++ shutdown_trace p).
Proof.
  destruct (Z.ltb_spec (ns p) 0) as [Hn|Hn].
  - exists locals. left. split; [exact Hn|]. now rewrite run_bad_array.
  - destruct (Z.eq_dec (FieldOutputCycle p) 0) as [HF|HF].
    + destruct (Z.ltb_spec 0 (ncycles p)) as [Hc|Hc].
      * exists locals. right. left. split; [exact Hn|].
        now rewrite run_division_by_zero.
      * destruct (run_completes p Hn (or_intror Hc)) as [st ->].
        exists st. right; right. now split.
    + destruct (run_completes p Hn (or_introl HF)) as [st ->].
      exists st. right; right. now split.
Qed.

(** X12: in every run, whatever the input, each call is handed stores of
    one replica only; the routines written for one replica ([mover_PC] and
    [interpP2G] for the CPU path, their [_GPU_basic] twins for the
    accelerator path) are handed stores of that replica; and each snapshot
    carries the tag, "cpu" or "gpu", of the replica whose stores it is
    handed. *)
Theorem calls_never_mix_replicas (p : parameters) :
  Forall (fun e : event => well_routed e = true) (trace_of (run p)).
Proof.
  destruct (run_trace_shape p) as [st [[_ ->] | [[_ ->] | [_ ->]]]].
  - unfold_traces. none_of.
  - unfold_traces. none_of.
  - apply Forall_app. split; [unfold_traces; none_of|].
    apply Forall_app. split.
    + unfold simulation_trace. apply Forall_flat_map_all. intros c.
      apply Forall_cycle_trace;
        [unfold_traces; none_of | reflexivity | unfold_traces; none_of].
    + unfold compare_trace. unfold_traces. none_of.
Qed.

Lemma Forall_flat_map_in {A B : Type} (P : B -> Prop) (f : A -> list B) l :
  (forall x, In x l -> Forall P (f x)) -> Forall P (flat_map f l).
Proof.
  intros H. apply Forall_flat_map. apply Forall_forall. exact H.
Qed.

(** Every cell index of an explicit trace lies in [0, ns). *)
Ltac cells_in_range :=
  repeat first
    [ apply Forall_nil
    | apply Forall_cons;
      [ cbn [indexed_cells flat_map app]; repeat constructor; lia |]
    | apply Forall_app; split
    | apply Forall_flat_map_in;
      let i := fresh "i" in let Hi := fresh "Hi" in
      intros i Hi; apply in_range in Hi ].

(** X13: in every run, whatever the input, every array cell handed to a
    routine ([idsCPU[is]], [idsGPU[is]], [partCPU[is]], [partGPU[is]]) has
    its index within [0, ns). *)
Theorem cell_indices_in_range (p : parameters) :
  Forall (fun e : event => Forall (fun i => 0 <= i < ns p) (indexed_cells e))
         (trace_of (run p)).
Proof.
  destruct (run_trace_shape p) as [st [[_ ->] | [[_ ->] | [_ ->]]]].
  - unfold_traces. cells_in_range.
  - unfold_traces. cells_in_range.
  - apply Forall_app. split; [unfold_traces; cells_in_range|].
    apply Forall_app. split.
    + unfold simulation_trace. apply Forall_flat_map_all. intros c.
      apply Forall_cycle_trace;
        [ unfold_traces; cells_in_range | constructor
        | unfold_traces; cells_in_range ].
    + unfold compare_trace. unfold_traces. cells_in_range.
Qed.

End Facts.

(** * Runs in the small world *)

Lemma flat_index_of_comparisons_witness :
  In {| lhs := net_rhon CPU; at_i := 2; at_j := 5; at_k := 1;
        rhs := net_rhon CPU; at_flat := 26 |}
     (idn_comparisons Toy.mesh) /\
  In {| lhs := species_rhon CPU 0; at_i := 2; at_j := 5; at_k := 1;
        rhs := species_rhon GPU 0; at_flat := 26 |}
     (ids_comparisons Toy.input Toy.mesh).
Proof.
  destruct (flat_index_of_comparisons Toy.input Toy.mesh locals)
    as (_ & _ & _ & H & _).
  assert (Hm : in_mesh Toy.mesh 2 5 1) by (unfold in_mesh; cbn; lia).
  destruct (H 2 5 1 Hm) as [Hn Hs]. split.
  - exact Hn.
  - apply (Hs 0). cbn. lia.
Defined.

(** C2: the flat index k*(nxn + nyn) + j*nxn + i is not injective on the
    in-range nodes of some meshes: on the mesh of 3 x 6 x 2 nodes the
    distinct in-range nodes (0, 0, 1) and (0, 0 + nxn, 1 - 1) = (0, 3, 0)
    both have flat index 9. *)
Theorem flat_index_not_injective :
  exists (g : grid unit) (i j k : Z),
    in_mesh g i j k /\ in_mesh g i (j + nxn g) (k - 1) /\
    (i, j, k) <> (i, j + nxn g, k - 1) /\
    flat_index g i (j + nxn g) (k - 1) = flat_index g i j k.
Proof.
  exists {| nxn := 3; nyn := 6; nzn := 2; grid_other := tt |}, 0, 0, 1.
  unfold in_mesh, flat_index. cbn.
  repeat split; try lia. discriminate.
Qed.

Lemma comparison_once_after_the_loop_witness :
  exists st,
    final_state (run Toy.input) = Some st /\
    Forall (fun e : event Z => is_report e = false)
           (shutdown_trace Toy.input).
Proof.
  assert (Hn : 0 <= ns Toy.input) by (cbn; lia).
  assert (Hc : FieldOutputCycle Toy.input <> 0 \/ ncycles Toy.input <= 0)
    by (left; cbn; lia).
  destruct (comparison_once_after_the_loop Toy.input Hn Hc)
    as (st & Hf & _ & _ & Hs & _).
  exists st. split; assumption.
Defined.

(** C3, as stated, fails: in the run of two cycles nothing is reported
    between the opening line of cycle 1 and the opening line of cycle 2. *)
Lemma comparison_not_after_each_cycle :
  ~ reported_after_each_cycle Toy.input (trace_of (run Toy.input)).
Proof.
  intros H. specialize (H 1).
  assert (Hin : In 1 (cycles Toy.input)) by (left; reflexivity).
  apply H in Hin. vm_compute in Hin. discriminate.
Qed.

Lemma main_returns_only_zero_witness :
  exit_status (run (W := Toy.configured_world) Toy.configured_input)
    = Some 0 /\
  List.length
    (states_after_cycles (W := Toy.configured_world) Toy.configured_input)
    = 2%nat /\
  final_state (run (W := Toy.configured_world) Toy.configured_input) =
    Some (last (states_after_cycles (W := Toy.configured_world)
                  Toy.configured_input)
               (initialized (W := Toy.configured_world) Toy.configured_input
                  (setGrid (Collaborators := Toy.configured_world)
                     Toy.configured_input))).
Proof.
  assert (H : exit_status
                (run (W := Toy.configured_world) Toy.configured_input)
              = Some 0) by reflexivity.
  destruct (main_returns_only_zero (W := Toy.configured_world)
              Toy.configured_input H) as (_ & H1 & H2).
  split; [exact H|]. split; [exact H1 | exact H2].
Defined.

(** C5, as stated, fails.  The input configures the threshold 10 and two
    cycles.  In the state the first cycle leaves, [maxError] of section 4.8
    is 44; in the state the second cycle leaves it is 66: two successive
    cycles breach the threshold, and the exit status is 0. *)
Lemma exit_zero_after_two_breaches :
  Toy.threshold Toy.configured_input = 10 /\
  Toy.errors_after_cycles Toy.configured_input = [44; 66] /\
  Toy.breaches Toy.configured_input = [true; true] /\
  exit_status (run (W := Toy.configured_world) Toy.configured_input)
    = Some 0 /\
  ~ Toy.nonzero_after_two_breaches Toy.configured_input.
Proof.
  split; [reflexivity|].
  split; [vm_compute; reflexivity|].
  split; [vm_compute; reflexivity|].
  split; [reflexivity|].
  intros H. apply H; vm_compute; reflexivity.
Qed.

(** The same run with the threshold 50 configured: the first cycle does
    not breach it, the second does, and one breach is not two in
    succession. *)
Lemma one_breach_is_not_two :
  let p := {| ns := 1; ncycles := 2; first_cycle_n := 1;
              FieldOutputCycle := 1; param_other := (2, 5, 1, 50) |} in
  Toy.breaches p = [false; true] /\
  Toy.two_in_succession (Toy.breaches p) = false.
Proof. vm_compute. split; reflexivity. Qed.

Lemma cycle_phases_in_sequence_witness :
  phase (Call (FPinterp := Z) f_mover_PC_GPU_basic
           [Ref (v_part_at GPU 0); Ref (v_field GPU); Ref v_grd; Ref v_param])
    = Some 1%nat /\
  phase (Call (FPinterp := Z) f_interpP2G
           [Ref (v_part_at CPU 0); Ref (v_ids_at CPU 0); Ref v_grd])
    = Some 2%nat /\
  (1 <= 2)%nat.
Proof.
  split; [reflexivity|]. split; [reflexivity|].
  apply (cycle_phases_in_sequence Toy.input Toy.mesh 1
           (initialized Toy.input Toy.mesh)
           (banner 1 ++ zero_trace Toy.input
              ++ [Call f_cpuSecond [];
                  Call f_mover_PC
                    [Ref (v_part_at CPU 0); Ref (v_field CPU); Ref v_grd;
                     Ref v_param]])
           [Call f_cpuSecond []; Call f_cpuSecond []]
           ([Call f_interpP2G_GPU_basic
               [Ref (v_part_at GPU 0); Ref (v_ids_at GPU 0); Ref v_grd]]
              ++ bc_calls 0 ++ sum_calls Toy.input ++ snapshots 1
              ++ [Call f_cpuSecond []])
           (Call f_mover_PC_GPU_basic
              [Ref (v_part_at GPU 0); Ref (v_field GPU); Ref v_grd;
               Ref v_param])
           (Call f_interpP2G
              [Ref (v_part_at CPU 0); Ref (v_ids_at CPU 0); Ref v_grd]));
    reflexivity.
Defined.

Lemma snapshots_on_cadence_witness :
  filter is_snapshot
    (trace_of (pic_cycle Toy.input_every_2nd Toy.mesh 2 Toy.state_a)) =
    [Call f_VTK_Write_Vectors [Int 2; Ref v_grd; Ref (v_field CPU); Tag "cpu"];
     Call f_VTK_Write_Vectors [Int 2; Ref v_grd; Ref (v_field GPU); Tag "gpu"];
     Call f_VTK_Write_Scalars
       [Int 2; Ref v_grd; Ref (v_ids CPU); Ref (v_idn CPU); Tag "cpu"];
     Call f_VTK_Write_Scalars
       [Int 2; Ref v_grd; Ref (v_ids GPU); Ref (v_idn GPU); Tag "gpu"]] /\
  filter is_snapshot
    (trace_of (pic_cycle Toy.input_every_2nd Toy.mesh 1 Toy.state_a)) = [].
Proof.
  assert (HF : FieldOutputCycle Toy.input_every_2nd <> 0) by (cbn; lia).
  split.
  - apply (snapshots_on_cadence Toy.input_every_2nd Toy.mesh 2 Toy.state_a HF).
    exists 1. reflexivity.
  - apply (snapshots_on_cadence Toy.input_every_2nd Toy.mesh 1 Toy.state_a HF).
    cbn. intros [k Hk]. lia.
Defined.

(** In the small world the replicas differ when the first cycle starts:
    the current density of species 0 reads 0 in the CPU-path replica, whose
    store was allocated, and -1 in the accelerator-path one, whose store
    never was. *)
Lemma replicas_at_the_first_cycle_witness :
  run Toy.input =
    (startup_trace Toy.input
       ++ fst (from_the_loop Toy.input Toy.mesh
                 (initialized Toy.input Toy.mesh)),
     snd (from_the_loop Toy.input Toy.mesh (initialized Toy.input Toy.mesh)))
  /\
  nested (ids_moment
            (cell (fresh_ids CPU 0)
               (idsCPU (initialized Toy.input Toy.mesh)) 0) m_Jx) 0 0 0 = 0
  /\
  nested (ids_moment
            (cell (fresh_ids GPU 0)
               (idsGPU (initialized Toy.input Toy.mesh)) 0) m_Jx) 0 0 0 = -1.
Proof.
  assert (Hn : 0 <= ns Toy.input) by (cbn; lia).
  destruct (replicas_at_the_first_cycle Toy.input Hn) as (Hrun & _ & _).
  split; [exact Hrun|]. split; reflexivity.
Defined.

Lemma densities_zeroed_in_every_cycle_witness :
  cells_ok Toy.input Toy.state_a /\
  pic_cycle Toy.input Toy.mesh 1 Toy.state_b =
  pic_cycle Toy.input Toy.mesh 1 Toy.state_a.
Proof.
  assert (Ha : cells_ok Toy.input Toy.state_a)
    by (intros r; destruct r; split; reflexivity).
  assert (Hb : cells_ok Toy.input Toy.state_b)
    by (intros r; destruct r; split; reflexivity).
  split; [exact Ha|].
  destruct (densities_zeroed_in_every_cycle Toy.mesh 1 Ha) as (_ & _ & H).
  apply H; [exact Hb|].
  intros r. destruct r; repeat split.
Defined.

(** * The further properties, in the small world *)

Lemma flat_index_injective_iff_witness :
  injective_on_mesh Toy.mesh_223 /\ ~ injective_on_mesh Toy.mesh_332.
Proof.
  split.
  - apply (flat_index_injective_iff Toy.mesh_223); cbn; lia.
  - intros H.
    apply (flat_index_injective_iff Toy.mesh_332) in H; cbn in *; lia.
Defined.

Lemma flat_index_below_node_count_iff_witness :
  below_node_count Toy.mesh_223 /\ ~ below_node_count Toy.mesh_132.
Proof.
  split.
  - apply (flat_index_below_node_count_iff Toy.mesh_223); cbn; lia.
  - intros H.
    apply (flat_index_below_node_count_iff Toy.mesh_132) in H; cbn in *; lia.
Defined.

(** The order, the maximum and the conversion of the world with
    exceptional values meet what the two theorems on the printed maxima
    ask for. *)
Lemma xle_refl (a : Toy.xnum) : Toy.xle a a = true.
Proof. destruct a as [x|[]|]; cbn; trivial. lia. Qed.

Lemma xle_trans (a b c : Toy.xnum) :
  Toy.xle a b = true -> Toy.xle b c = true -> Toy.xle a c = true.
Proof.
  destruct a as [x|[]|], b as [y|[]|], c as [z|[]|]; cbn;
    trivial; try discriminate; lia.
Qed.

Lemma xmax_left (a b : Toy.xnum) : Toy.xle a (Toy.xmax a b) = true.
Proof.
  destruct a as [x|[]|], b as [y|[]|]; cbn; trivial; try lia.
  destruct (Z.leb_spec x y); cbn; lia.
Qed.

Lemma xmax_right (a b : Toy.xnum) : Toy.xle b (Toy.xmax a b) = true.
Proof.
  destruct a as [x|[]|], b as [y|[]|]; cbn; trivial; try lia.
  destruct (Z.leb_spec x y); cbn; lia.
Qed.

Lemma xmax_choice (a b : Toy.xnum) :
  Toy.xmax a b = a \/ Toy.xmax a b = b.
Proof.
  destruct a as [x|[]|], b as [y|[]|]; cbn; auto.
  destruct (x <=? y); auto.
Qed.

Lemma xnarrow_monotone (a b : Toy.xnum) :
  Toy.xle a b = true -> Toy.xle (Toy.xnarrow a) (Toy.xnarrow b) = true.
Proof.
  destruct a as [x|[]|], b as [y|[]|]; cbn -[Z.mul Z.div]; trivial;
    try discriminate; intros H;
    repeat match goal with
           | |- context [?u <? ?v] =>
               destruct (Z.ltb_spec u v); cbn -[Z.mul Z.div]
           end; trivial; try lia; try discriminate.
  apply Z.leb_le. apply Z.leb_le in H.
  apply Z.mul_le_mono_nonneg_l; [lia|]. apply Z.div_le_mono; lia.
Qed.

Lemma xnarrow_idempotent (a : Toy.xnum) :
  Toy.xnarrow (Toy.xnarrow a) = Toy.xnarrow a.
Proof.
  destruct a as [x|[]|]; cbn -[Z.mul Z.div]; trivial.
  destruct (Z.ltb_spec 1000 x); [reflexivity|].
  destruct (Z.ltb_spec x (-1000)); [reflexivity|]. cbn -[Z.mul Z.div].
  pose proof (Z.mul_div_le x 4 ltac:(lia)) as Hle.
  assert (Hge : -1000 <= 4 * (x / 4)).
  { change (-1000) with (4 * (-250)).
    apply Z.mul_le_mono_nonneg_l; [lia|].
    apply Z.div_le_lower_bound; lia. }
  destruct (Z.ltb_spec 1000 (4 * (x / 4))); [lia|].
  destruct (Z.ltb_spec (4 * (x / 4)) (-1000)); [lia|].
  f_equal. f_equal. rewrite Z.mul_comm. apply Z.div_mul. lia.
Qed.

(** With a NaN along j = 1 and the magnitudes 0, 3, 14 and 17 elsewhere,
    the comparison prints 16: the conversion of 17, the greatest magnitude,
    which is itself above what is printed. *)
Lemma printed_maxima_are_maxima_witness :
  maxErrorIdsRhon (W := Toy.extended_world) Toy.input Toy.mesh_132
    Toy.state_x = Toy.Fin 16 /\
  deviation (W := Toy.extended_world) Toy.state_x
    {| lhs := species_rhon CPU 0; at_i := 0; at_j := 2; at_k := 1;
       rhs := species_rhon GPU 0; at_flat := 6 |} = Toy.Fin 17 /\
  Toy.xle
    (Toy.xnarrow
       (deviation (W := Toy.extended_world) Toy.state_x
          {| lhs := species_rhon CPU 0; at_i := 0; at_j := 2; at_k := 1;
             rhs := species_rhon GPU 0; at_flat := 6 |}))
    (maxErrorIdsRhon (W := Toy.extended_world) Toy.input Toy.mesh_132
       Toy.state_x) = true /\
  Toy.xle (Toy.Fin 0)
    (maxErrorIdnRhon (W := Toy.extended_world) Toy.mesh_132 Toy.state_x)
    = true.
Proof.
  destruct (printed_maxima_are_maxima (W := Toy.extended_world)
              (fun a b => Toy.xle a b = true)
              Toy.input Toy.mesh_132 Toy.state_x
              xle_refl xle_trans xmax_left xmax_right xmax_choice
              xnarrow_monotone xnarrow_idempotent eq_refl)
    as [(_ & H1 & _) (H2 & _)].
  split; [reflexivity|]. split; [reflexivity|]. split; [|exact H2].
  rewrite Forall_forall in H1. apply H1.
  vm_compute. auto 10.
Defined.

(** Views that agree on finite values at every node of the mesh of
    1 x 3 x 2 nodes. *)
Lemma agreeing_views_report_zero_witness :
  maxErrorIdsRhon (W := Toy.extended_world) Toy.input Toy.mesh_132
    Toy.state_y = Toy.Fin 0 /\
  maxErrorIdnRhon (W := Toy.extended_world) Toy.mesh_132 Toy.state_y
    = Toy.Fin 0.
Proof.
  destruct (agreeing_views_report_zero (W := Toy.extended_world) Toy.xfinite
              Toy.input Toy.mesh_132 Toy.state_y) as [H1 H2].
  - intros [x|s|] Hx; cbn in *; [|contradiction|contradiction].
    f_equal. lia.
  - reflexivity.
  - reflexivity.
  - split.
    + apply H1. intros isp i j k Hs _.
      assert (isp = 0) by (cbn in Hs; lia). subst.
      split; [exact I|]. cbn. f_equal. lia.
    + apply H2. intros i j k _.
      split; [exact I|]. cbn. f_equal. lia.
Defined.

Lemma empty_ranges_report_zero_witness :
  maxErrorIdsRhon Toy.input_no_species Toy.mesh Toy.state_a = 0.
Proof.
  destruct (empty_ranges_report_zero Toy.input_no_species Toy.mesh
              Toy.state_a) as [H _].
  apply H. left. cbn. lia.
Defined.

Lemma replicas_evolve_independently_witness :
  agree_on CPU (snd (pic_cycle Toy.input Toy.mesh 1 Toy.state_a))
               (snd (pic_cycle Toy.input Toy.mesh 1 Toy.state_c)) /\
  agree_on CPU (snd (simulation Toy.input Toy.mesh Toy.state_a))
               (snd (simulation Toy.input Toy.mesh Toy.state_c)).
Proof.
  assert (H : sel CPU Toy.state_a = sel CPU Toy.state_c) by reflexivity.
  destruct (replicas_evolve_independently Toy.input Toy.mesh 1 CPU
              Toy.state_a Toy.state_c H) as (H1 & H2 & _).
  split; assumption.
Defined.

Lemma run_without_cycles_witness :
  exit_status (run Toy.input_no_cycle) = Some 0 /\
  final_state (run Toy.input_no_cycle)
    = Some (initialized Toy.input_no_cycle (setGrid Toy.input_no_cycle)).
Proof.
  assert (Hn : 0 <= ns Toy.input_no_cycle) by (cbn; lia).
  assert (Hc : ncycles Toy.input_no_cycle <= 0) by (cbn; lia).
  rewrite (run_without_cycles Toy.input_no_cycle Hn Hc).
  split; reflexivity.
Defined.

Lemma run_with_negative_ns_witness :
  exit_status (run Toy.input_negative_ns) = None /\
  calls_of f_initGEM (trace_of (run Toy.input_negative_ns)) = 0%nat.
Proof.
  assert (Hn : ns Toy.input_negative_ns < 0) by (cbn; lia).
  rewrite (run_with_negative_ns Toy.input_negative_ns Hn).
  split; reflexivity.
Defined.


Lemma announced_cycles_of_run_witness :
  announced (trace_of (run Toy.input)) = [1; 2].
Proof.
  assert (Hn : 0 <= ns Toy.input) by (cbn; lia).
  assert (Hc : FieldOutputCycle Toy.input <> 0 \/ ncycles Toy.input <= 0)
    by (left; cbn; lia).
  destruct (announced_cycles_of_run Toy.input Hn Hc) as (H & _).
  exact H.
Defined.

Lemma calls_per_species_and_cycle_witness :
  calls_of f_mover_PC (trace_of (run Toy.input)) = 2%nat /\
  calls_of f_applyBCids (trace_of (run Toy.input)) = 4%nat.
Proof.
  assert (Hn : 0 <= ns Toy.input) by (cbn; lia).
  assert (Hc : FieldOutputCycle Toy.input <> 0 \/ ncycles Toy.input <= 0)
    by (left; cbn; lia).
  destruct (calls_per_species_and_cycle Toy.input Hn Hc)
    as (H1 & _ & _ & _ & H5 & _).
  split; [exact H1 | exact H5].
Defined.

